(** * NystromD: dimension-subsampled Nystrom estimator

    A shallow embedding of
    [src/shogun/distributions/kernel_exp_family/impl/NystromD.cpp].

    - [float64_t] is the binary64 type of the kernel ([PrimFloat.float]);
      the proofs never use a property of its arithmetic, only the order in
      which the source applies it.
    - [index_t] is a signed 32-bit integer.  Its values are written in [Z];
      the quotient and remainder are the truncating ones of C++
      ([Z.quot], [Z.rem]).  Sums and products of indices are exact: buffer
      sizes are taken to fit [index_t], overflow of a signed integer being
      undefined in the source.  Division by [D = 0] is undefined there too;
      the statements about a function that divides ask for [D > 0].
    - [SGVector<T>] is a [list T]; [SGMatrix<T>] is a record with the two
      dimensions and the column-major buffer.  Element access in the source
      is unchecked pointer arithmetic: a read or write outside the buffer is
      undefined there and is an error ([None]) here.
    - A counted [for] loop is [for_loop], which threads the loop state through
      the error monad.
    - [CMath::qsort] and the content of freshly allocated buffers are
      parameters of the model. *)

From Stdlib Require Import ZArith Lia Floats Uint63.
From stdpp Require Import base option list sorting.

Local Open Scope Z_scope.

(** ** Error monad and counted loops *)

Module Loop.

Fixpoint iter_from {S : Type} (fuel : nat) (i : Z)
    (body : Z -> S -> option S) (s : S) : option S :=
  match fuel with
  | O => Some s
  | Datatypes.S fuel' =>
      match body i s with
      | Some s' => iter_from fuel' (i + 1) body s'
      | None => None
      end
  end.

(** [for (auto i=0; i<n; i++) body] *)
Definition for_loop {S : Type} (n : Z) (body : Z -> S -> option S) (s : S)
    : option S :=
  iter_from (Z.to_nat n) 0 body s.

End Loop.

(** ** SGVector and SGMatrix *)

Module SG.

Section Containers.
Context {A : Type}.

(** [v[i]] *)
Definition vec_get (v : list A) (i : Z) : option A :=
  if decide (0 <= i) then v !! Z.to_nat i else None.

(** [v[i] = x] *)
Definition vec_set (v : list A) (i : Z) (x : A) : option (list A) :=
  if decide (0 <= i < Z.of_nat (length v))
  then Some (<[Z.to_nat i := x]> v) else None.

Record SGMatrix := mkSGMatrix {
  num_rows : Z;
  num_cols : Z;
  matrix : list A
}.

(** [m(i, j)], column-major: [matrix[j*num_rows + i]] *)
Definition mat_get (m : SGMatrix) (i j : Z) : option A :=
  vec_get (matrix m) (j * num_rows m + i).

(** [m(i, j) = x] *)
Definition mat_set (m : SGMatrix) (i j : Z) (x : A) : option SGMatrix :=
  match vec_set (matrix m) (j * num_rows m + i) x with
  | Some d => Some (mkSGMatrix (num_rows m) (num_cols m) d)
  | None => None
  end.

(** The buffer has the size the dimensions announce. *)
Definition mat_wf (m : SGMatrix) : Prop :=
  0 <= num_rows m /\ 0 <= num_cols m /\
  Z.of_nat (length (matrix m)) = num_rows m * num_cols m.

End Containers.

Arguments SGMatrix : clear implicits.

End SG.

Import Loop SG.

(** ** The kernel service *)

(** [kernel::Base]: the derivative contractions the estimator calls, keyed by
    point and dimension indices.  The estimator only reads from it. *)
Module kernel.

Record Base := mkBase {
  dx_component : Z -> Z -> Z -> float;
  dx_dy_component : Z -> Z -> Z -> Z -> float;
  dx_dy_dy_component : Z -> Z -> Z -> Z -> float;
  dx_i_dx_j_component : Z -> Z -> Z -> list float;
  dx_i_dx_j_dx_k_dot_vec_component : Z -> Z -> list float -> Z -> Z -> float
}.

End kernel.

(** ** Estimator state *)

(** The members of [NystromD] that the functions below read.  The three
    sizes are what the inherited accessors [get_num_dimensions()],
    [get_num_basis()] and [get_num_data()] return. *)
Record NystromD := mkNystromD {
  m_basis_inds : list Z;
  m_beta : list float;
  m_kernel : kernel.Base;
  get_num_dimensions : Z;
  get_num_basis : Z;
  get_num_data : Z
}.

Definition with_basis_inds (st : NystromD) (inds : list Z) : NystromD :=
  mkNystromD inds (m_beta st) (m_kernel st)
    (get_num_dimensions st) (get_num_basis st) (get_num_data st).

(** Diagnostic output of [SG_SWARNING] / [SG_SINFO]. *)
Inductive log_line :=
  | Warn_zero_components (point : Z)
  | Info_using_components (used rows cols size : Z).

(** Conversion of an [index_t] to [float64_t] (exact on 32-bit values). *)
Definition float_of_index (n : Z) : float :=
  if decide (0 <= n) then PrimFloat.of_uint63 (Uint63.of_Z n)
  else PrimFloat.opp (PrimFloat.of_uint63 (Uint63.of_Z (- n))).

(** [v.zero()] *)
Definition vec_zero (v : list float) : list float :=
  replicate (length v) 0%float.

(** [m.zero()] *)
Definition mat_zero (m : SGMatrix float) : SGMatrix float :=
  mkSGMatrix (num_rows m) (num_cols m) (vec_zero (matrix m)).

(** [v.scale(alpha)] *)
Definition vec_scale (v : list float) (alpha : float) : list float :=
  map (fun x => (x * alpha)%float) v.

(** [std::set<index_t>::insert] on the ascending, duplicate-free sequence
    that iterating the set yields. *)
Fixpoint set_insert (x : Z) (s : list Z) : list Z :=
  match s with
  | [] => [x]
  | y :: s' =>
      if decide (x < y) then x :: y :: s'
      else if decide (y < x) then y :: set_insert x s'
      else y :: s'
  end.

(** [std::set_difference] on two ascending ranges. *)
Fixpoint set_difference (l1 : list Z) : list Z -> list Z :=
  fix scan (l2 : list Z) : list Z :=
    match l1, l2 with
    | [], _ => []
    | _, [] => l1
    | x :: l1', y :: l2' =>
        if decide (x < y) then x :: set_difference l1' l2
        else if decide (y < x) then scan l2'
        else set_difference l1' l2'
    end.

(** ** NystromD.cpp *)

(** [NystromD::idx_to_ai] *)
Definition idx_to_ai (idx D : Z) : Z * Z := (Z.quot idx D, Z.rem idx D).

Arguments idx_to_ai : simpl never.

Section Model.

(** What a freshly allocated buffer holds at each position. *)
Variable uninit : nat -> float.
(** [CMath::qsort] on an index vector. *)
Variable qsort : list Z -> list Z.

Definition new_vector (n : Z) : list float :=
  map uninit (seq 0 (Z.to_nat n)).

Definition new_matrix (r c : Z) : SGMatrix float :=
  mkSGMatrix r c (map uninit (seq 0 (Z.to_nat (r * c)))).

(** [NystromD::basis_inds_from_mask] *)
Definition basis_inds_from_mask (basis_mask : SGMatrix bool) : option (list Z) :=
  let num_mask_elements := num_rows basis_mask * num_cols basis_mask in
  basis_inds_dynamic ←
    for_loop num_mask_elements (fun i dyn =>
      m ← vec_get (matrix basis_mask) i;
      Some (if m : bool then dyn ++ [i] else dyn)) [];
  Some (qsort basis_inds_dynamic).

(** [NystromD::get_basis_point_inds] *)
Definition get_basis_point_inds (st : NystromD) (basis_inds : list Z)
    : option (list Z) :=
  let D := get_num_dimensions st in
  for_loop (Z.of_nat (length basis_inds)) (fun i set =>
    idx ← vec_get basis_inds i;
    let ai := idx_to_ai idx D in
    Some (set_insert ai.1 set)) [].

(** [NystromD::set_basis_inds_from_mask]: the new state and the lines it
    logs. *)
Definition set_basis_inds_from_mask (st : NystromD) (basis_mask : SGMatrix bool)
    : option (NystromD * list log_line) :=
  inds ← basis_inds_from_mask basis_mask;
  let st' := with_basis_inds st inds in
  basis_point_inds ← get_basis_point_inds st' (m_basis_inds st');
  let N := num_cols basis_mask in
  all_inds ← for_loop N (fun i all => Some (all ++ [i])) [];
  let unused := set_difference all_inds basis_point_inds in
  Some (st',
        map Warn_zero_components unused ++
        [Info_using_components (Z.of_nat (length (m_basis_inds st')))
           (num_rows basis_mask) (num_cols basis_mask)
           (num_rows basis_mask * num_cols basis_mask)]).

(** [NystromD::get_system_size] *)
Definition get_system_size (st : NystromD) : Z :=
  Z.of_nat (length (m_basis_inds st)).

(** [NystromD::compute_h] *)
Definition compute_h (st : NystromD) : option (list float) :=
  let D := get_num_dimensions st in
  let N_basis := get_num_basis st in
  let N_data := get_num_data st in
  let system_size := N_basis * D in
  let ND := N_data * D in
  let h := vec_zero (new_vector system_size) in
  h ← for_loop system_size (fun idx_k h =>
    ind_k ← vec_get (m_basis_inds st) idx_k;
    let ai := idx_to_ai ind_k D in
    let a := ai.1 in
    let i := ai.2 in
    for_loop ND (fun b h =>
      for_loop system_size (fun idx_l h =>
        ind_l ← vec_get (m_basis_inds st) idx_l;
        let temp := idx_to_ai ind_l D in
        if decide (temp.1 <> b) then Some h
        else
          let j := temp.2 in
          h_k ← vec_get h idx_k;
          vec_set h idx_k
            (h_k + kernel.dx_dy_dy_component (m_kernel st) a b i j)%float) h) h) h;
  Some (vec_scale h (1 / float_of_index N_data)%float).

(** [NystromD::compute_G_mn] *)
Definition compute_G_mn (st : NystromD) : option (SGMatrix float) :=
  let D := get_num_dimensions st in
  let system_size := get_system_size st in
  let N := get_num_data st in
  let ND := N * D in
  for_loop ND (fun idx_l G_mn =>
    let ai := idx_to_ai idx_l D in
    let a := ai.1 in
    let i := ai.2 in
    for_loop system_size (fun idx_k G_mn =>
      ind_k ← vec_get (m_basis_inds st) idx_k;
      let bj := idx_to_ai ind_k D in
      let b := bj.1 in
      let j := bj.2 in
      mat_set G_mn idx_k idx_l
        (kernel.dx_dy_component (m_kernel st) b a j i)) G_mn)
    (new_matrix system_size ND).

(** [NystromD::compute_G_mm] *)
Definition compute_G_mm (st : NystromD) : option (SGMatrix float) :=
  let system_size := get_system_size st in
  let D := get_num_dimensions st in
  let vlen := Z.of_nat (length (m_basis_inds st)) in
  for_loop vlen (fun idx_l G_mm =>
    ind_l ← vec_get (m_basis_inds st) idx_l;
    let ai := idx_to_ai ind_l D in
    let a := ai.1 in
    let i := ai.2 in
    for_loop vlen (fun idx_k G_mm =>
      ind_k ← vec_get (m_basis_inds st) idx_k;
      let bj := idx_to_ai ind_k D in
      let b := bj.1 in
      let j := bj.2 in
      mat_set G_mm idx_k idx_l
        (kernel.dx_dy_component (m_kernel st) b a j i)) G_mm)
    (new_matrix system_size system_size).

(** [NystromD::subsample_G_mm_from_G_mn] *)
Definition subsample_G_mm_from_G_mn (st : NystromD) (G_mn : SGMatrix float)
    : option (SGMatrix float) :=
  let system_size := get_system_size st in
  let vlen := Z.of_nat (length (m_basis_inds st)) in
  for_loop vlen (fun idx_l G_mm =>
    for_loop system_size (fun idx_k G_mm =>
      col ← vec_get (m_basis_inds st) idx_l;
      x ← mat_get G_mn idx_k col;
      mat_set G_mm idx_k idx_l x) G_mm)
    (new_matrix system_size system_size).

(** [NystromD::log_pdf] *)
Definition log_pdf (st : NystromD) (idx_test : Z) : option float :=
  let D := get_num_dimensions st in
  let system_size := get_system_size st in
  for_loop system_size (fun idx_l beta_sum =>
    ind_l ← vec_get (m_basis_inds st) idx_l;
    let ai := idx_to_ai ind_l D in
    let a := ai.1 in
    let i := ai.2 in
    let grad_x_xa := kernel.dx_component (m_kernel st) a idx_test i in
    beta_l ← vec_get (m_beta st) idx_l;
    Some (beta_sum + beta_l * grad_x_xa)%float) 0%float.

(** [NystromD::grad] *)
Definition grad (st : NystromD) (idx_test : Z) : option (list float) :=
  let D := get_num_dimensions st in
  let system_size := get_system_size st in
  for_loop system_size (fun idx_l beta_grad_sum =>
    ind_l ← vec_get (m_basis_inds st) idx_l;
    let ai := idx_to_ai ind_l D in
    let a := ai.1 in
    let i := ai.2 in
    let left_arg_hessian :=
      kernel.dx_i_dx_j_component (m_kernel st) a idx_test i in
    for_loop system_size (fun idx_k beta_grad_sum =>
      ind_k ← vec_get (m_basis_inds st) idx_k;
      let bj := idx_to_ai ind_k D in
      let b := bj.1 in
      if decide (a <> b) then Some beta_grad_sum
      else
        let j := bj.2 in
        lah_j ← vec_get left_arg_hessian j;
        beta_k ← vec_get (m_beta st) idx_k;
        g_i ← vec_get beta_grad_sum i;
        vec_set beta_grad_sum i (g_i - lah_j * beta_k)%float) beta_grad_sum)
    (vec_zero (new_vector D)).

(** [NystromD::get_beta_for_basis_point] *)
Definition get_beta_for_basis_point (st : NystromD) (a : Z)
    : option (list float) :=
  let D := get_num_dimensions st in
  let system_size := get_system_size st in
  for_loop system_size (fun idx_k beta_a =>
    ind_k ← vec_get (m_basis_inds st) idx_k;
    let bj := idx_to_ai ind_k D in
    let b := bj.1 in
    let j := bj.2 in
    if decide (a <> b) then Some beta_a
    else
      beta_k ← vec_get (m_beta st) idx_k;
      vec_set beta_a j beta_k) (vec_zero (new_vector D)).

(** [NystromD::hessian] *)
Definition hessian (st : NystromD) (idx_test : Z) : option (SGMatrix float) :=
  let D := get_num_dimensions st in
  let system_size := get_system_size st in
  for_loop system_size (fun idx_l beta_sum_hessian =>
    ind_l ← vec_get (m_basis_inds st) idx_l;
    let ai := idx_to_ai ind_l D in
    let a := ai.1 in
    let i := ai.2 in
    beta_a ← get_beta_for_basis_point st a;
    for_loop system_size (fun idx_k beta_sum_hessian =>
      ind_k ← vec_get (m_basis_inds st) idx_k;
      let bj := idx_to_ai ind_k D in
      let b := bj.1 in
      if decide (a <> b) then Some beta_sum_hessian
      else
        let j := bj.2 in
        let beta_hess_sum :=
          kernel.dx_i_dx_j_dx_k_dot_vec_component (m_kernel st)
            a idx_test beta_a i j in
        h_ij ← mat_get beta_sum_hessian i j;
        mat_set beta_sum_hessian i j (h_ij + beta_hess_sum)%float)
      beta_sum_hessian)
    (mat_zero (new_matrix D D)).

(** [NystromD::hessian_diag] *)
Definition hessian_diag (st : NystromD) (idx_test : Z) : option (list float) :=
  let D := get_num_dimensions st in
  let system_size := get_system_size st in
  for_loop system_size (fun idx_l beta_sum_hessian_diag =>
    ind_l ← vec_get (m_basis_inds st) idx_l;
    let ai := idx_to_ai ind_l D in
    let a := ai.1 in
    let i := ai.2 in
    beta_a ← get_beta_for_basis_point st a;
    let beta_hess_sum :=
      kernel.dx_i_dx_j_dx_k_dot_vec_component (m_kernel st)
        a idx_test beta_a i i in
    d_i ← vec_get beta_sum_hessian_diag i;
    vec_set beta_sum_hessian_diag i (d_i + beta_hess_sum)%float)
    (vec_zero (new_vector D)).

End Model.

(** ** Estimator invariants *)

(** The basis component index set is strictly increasing and every index
    addresses a cell of the [D x N_basis] mask; [D] is positive. *)
Record estimator_inv (st : NystromD) : Prop := mk_estimator_inv {
  inv_dims : 0 < get_num_dimensions st;
  inv_sorted : StronglySorted Z.lt (m_basis_inds st);
  inv_range :
    Forall (fun idx => 0 <= idx < get_num_basis st * get_num_dimensions st)
      (m_basis_inds st)
}.

(** [beta] has one coefficient per basis component. *)
Definition beta_fitted (st : NystromD) : Prop :=
  length (m_beta st) = length (m_basis_inds st).

(** The kernel's Hessian rows have one entry per dimension. *)
Definition kernel_rows_ok (st : NystromD) : Prop :=
  forall a b i,
    Z.of_nat (length (kernel.dx_i_dx_j_component (m_kernel st) a b i))
    = get_num_dimensions st.

(** The kernel's mixed second derivative is symmetric under exchanging the
    two (point, dimension) arguments. *)
Definition kernel_symmetric (k : kernel.Base) : Prop :=
  forall a b i j,
    kernel.dx_dy_component k b a j i = kernel.dx_dy_component k a b i j.

(** Component [k] of the basis is dimension [i] of point [a]. *)
Definition component_of (st : NystromD) (k a i : Z) : Prop :=
  exists idx, vec_get (m_basis_inds st) k = Some idx /\
              idx_to_ai idx (get_num_dimensions st) = (a, i).

(** ** Sums as the specification words them *)

(** A sum of [float64_t] terms, accumulated from zero in the order given. *)
Definition float_sum (terms : list float) : float :=
  foldl (fun acc t => (acc + t)%float) 0%float terms.

(** The terms of [log_pdf]: one per active basis component [k], namely
    [beta[k] * dx_component(a, query, i)] for the point [a] and dimension [i]
    the index mapper gives for the component. *)
Definition log_pdf_terms (st : NystromD) (query : Z) : list float :=
  zip_with (fun idx beta_k =>
    let ai := idx_to_ai idx (get_num_dimensions st) in
    (beta_k * kernel.dx_component (m_kernel st) ai.1 query ai.2)%float)
    (m_basis_inds st) (m_beta st).

(** The terms of the entry of [h] for (point [a], dimension [i]):
    [dx_dy_dy_component(a, b, i, j)] for all data points [b] in
    [[0, N_data)] and all dimensions [j] in [[0, D)]. *)
Definition h_terms (st : NystromD) (a i : Z) : list float :=
  b ← seqZ 0 (get_num_data st);
  (fun j => kernel.dx_dy_dy_component (m_kernel st) a b i j)
    <$> seqZ 0 (get_num_dimensions st).

(** The entry of [h] for (point [a], dimension [i]) as the specification
    words it: [1/N_data] times the sum of these terms. *)
Definition h_entry_spec (st : NystromD) (a i : Z) : float :=
  (float_sum (h_terms st a i) * (1 / float_of_index (get_num_data st)))%float.

(** ** Loop invariants *)

(** The scan of the mask: after [i] cells the collected indices ascend and
    are the active cells below [i]. *)
Definition scan_inv (basis_mask : SGMatrix bool) (i : Z) (dyn : list Z) : Prop :=
  StronglySorted Z.lt dyn /\
  forall x, x ∈ dyn <-> (0 <= x < i /\ vec_get (matrix basis_mask) x = Some true).

(** The beta slice of point [a] after the first [n] components: it holds the
    coefficient of every component of [a] seen so far and zero in the
    dimensions none of them has. *)
Definition slice_inv (st : NystromD) (a : Z) (n : Z) (beta_a : list float) : Prop :=
  Z.of_nat (length beta_a) = get_num_dimensions st /\
  (forall k j, 0 <= k < n -> component_of st k a j ->
     exists b, vec_get (m_beta st) k = Some b /\ vec_get beta_a j = Some b) /\
  (forall j, 0 <= j < get_num_dimensions st ->
     (forall k, 0 <= k < n -> ~ component_of st k a j) ->
     vec_get beta_a j = Some 0%float).

(** Dimension [i] belongs to no active basis component. *)
Definition dimension_unused (st : NystromD) (i : Z) : Prop :=
  forall k a, ~ component_of st k a i.

(** The gradient accumulator: of length [D], zero wherever the dimension is
    unused. *)
Definition grad_inv (st : NystromD) (g : list float) : Prop :=
  Z.of_nat (length g) = get_num_dimensions st /\
  forall i, 0 <= i < get_num_dimensions st -> dimension_unused st i ->
    vec_get g i = Some 0%float.

(** The Hessian and its diagonal accumulator, run side by side: the matrix
    is [D x D] and its diagonal is the vector. *)
Definition hess_rel (st : NystromD) (H : SGMatrix float) (d : list float) : Prop :=
  num_rows H = get_num_dimensions st /\
  Z.of_nat (length (matrix H)) = get_num_dimensions st * get_num_dimensions st /\
  Z.of_nat (length d) = get_num_dimensions st /\
  forall i, 0 <= i < get_num_dimensions st -> mat_get H i i = vec_get d i.

(** The inner loop of [hessian] for component [l] of dimension [i], after
    [k] components: the diagonal of [H0] is kept except at [(i, i)], which
    has received [term] once [k] has passed [l]. *)
Definition hess_inner_inv (st : NystromD) (H0 : SGMatrix float)
    (l i : Z) (term : float) (k : Z) (H : SGMatrix float) : Prop :=
  num_rows H = get_num_dimensions st /\
  Z.of_nat (length (matrix H)) = get_num_dimensions st * get_num_dimensions st /\
  (forall i', 0 <= i' < get_num_dimensions st -> i' <> i ->
     mat_get H i' i' = mat_get H0 i' i') /\
  exists m, mat_get H0 i i = Some m /\
    mat_get H i i = Some (if decide (k <= l) then m else (m + term)%float).

(** The value both system-matrix builders store for the pair of flat
    component indices [idx_k] (row) and [idx_l] (column). *)
Definition G_cell (st : NystromD) (idx_k idx_l : Z) : float :=
  let D := get_num_dimensions st in
  kernel.dx_dy_component (m_kernel st)
    (idx_to_ai idx_k D).1 (idx_to_ai idx_l D).1
    (idx_to_ai idx_k D).2 (idx_to_ai idx_l D).2.

(** [m_basis_inds[k]] for [k] in range. *)
Definition basis_ind (st : NystromD) (k : Z) : Z :=
  default 0 (vec_get (m_basis_inds st) k).

(** A matrix being filled column by column with [g]: the first [l] columns
    are done. *)
Definition fill_inv (R C : Z) (g : Z -> Z -> float) (l : Z)
    (G : SGMatrix float) : Prop :=
  num_rows G = R /\ num_cols G = C /\
  Z.of_nat (length (matrix G)) = R * C /\
  forall k l', 0 <= k < R -> 0 <= l' < l -> mat_get G k l' = Some (g k l').

(** ... and the first [k] cells of column [l] as well. *)
Definition fill_col_inv (R C : Z) (g : Z -> Z -> float) (l k : Z)
    (G : SGMatrix float) : Prop :=
  num_rows G = R /\ num_cols G = C /\
  Z.of_nat (length (matrix G)) = R * C /\
  (forall k' l', 0 <= k' < R -> 0 <= l' < l -> mat_get G k' l' = Some (g k' l')) /\
  (forall k', 0 <= k' < k -> mat_get G k' l = Some (g k' l)).

(** The accumulation into [h[k]]: starting from [h0], whose entry [k] is
    [x0], the terms have been added to entry [k] in order and nothing else
    has changed. *)
Definition h_cell_inv (h0 : list float) (k : Z) (x0 : float)
    (terms : list float) (h : list float) : Prop :=
  length h = length h0 /\
  (forall k', k' <> k -> vec_get h k' = vec_get h0 k') /\
  vec_get h k = Some (foldl (fun acc t => (acc + t)%float) x0 terms).

(** How many dimensions of data point [b] the scan of the fully active
    basis has passed after [l] components. *)
Definition dims_passed (D b l : Z) : Z := Z.max 0 (Z.min D (l - b * D)).

(** [h] after [n] entries are complete: these hold the unscaled sums, the
    others are still zero. *)
Definition h_inv (st : NystromD) (n : Z) (h : list float) : Prop :=
  Z.of_nat (length h) = get_num_data st * get_num_dimensions st /\
  forall k, 0 <= k < get_num_data st * get_num_dimensions st ->
    vec_get h k =
      Some (if decide (k < n)
            then float_sum (h_terms st (idx_to_ai k (get_num_dimensions st)).1
                                       (idx_to_ai k (get_num_dimensions st)).2)
            else 0%float).

(** ** The evaluators in closed form *)

(** Owning point and dimension of the component at position [k]. *)
Definition point_of (st : NystromD) (k : Z) : Z :=
  (idx_to_ai (basis_ind st k) (get_num_dimensions st)).1.

Definition dim_of (st : NystromD) (k : Z) : Z :=
  (idx_to_ai (basis_ind st k) (get_num_dimensions st)).2.

(** The coefficient of the component (point [a], dimension [j]): [beta] at
    the position of the flat index [a*D + j] in [m_basis_inds], zero when
    the index is not there. *)
Definition beta_at (st : NystromD) (a j : Z) : float :=
  match list_find (fun idx => idx = a * get_num_dimensions st + j)
          (m_basis_inds st) with
  | Some (k, _) => default 0%float (m_beta st !! k)
  | None => 0%float
  end.

(** The zero-padded beta slice of point [a]. *)
Definition beta_slice (st : NystromD) (a : Z) : list float :=
  beta_at st a <$> seqZ 0 (get_num_dimensions st).

(** The terms [hessian_diag] adds to entry [i] while it visits the first
    [n] components: one for each component of dimension [i]. *)
Definition hessian_diag_terms (st : NystromD) (query i n : Z) : list float :=
  l ← seqZ 0 n;
  if decide (dim_of st l = i)
  then [kernel.dx_i_dx_j_dx_k_dot_vec_component (m_kernel st)
          (point_of st l) query (beta_slice st (point_of st l)) i i]
  else [].

(** The products the inner loop of [grad] subtracts for the component at
    position [l], over the first [n] components: one for each component of
    the same point. *)
Definition grad_inner_terms (st : NystromD) (query l n : Z) : list float :=
  k ← seqZ 0 n;
  if decide (point_of st l = point_of st k)
  then [(default 0%float
           (vec_get (kernel.dx_i_dx_j_component (m_kernel st)
                       (point_of st l) query (dim_of st l)) (dim_of st k))
         * default 0%float (vec_get (m_beta st) k))%float]
  else [].

(** The products [grad] subtracts from entry [i] while it visits the first
    [n] components. *)
Definition grad_terms (st : NystromD) (query i n : Z) : list float :=
  l ← seqZ 0 n;
  if decide (dim_of st l = i)
  then grad_inner_terms st query l (get_system_size st)
  else [].

(** A running difference: the terms subtracted from [x0] in order. *)
Definition float_diff (x0 : float) (terms : list float) : float :=
  foldl (fun acc t => (acc - t)%float) x0 terms.

(** The points that own both dimension [i] and dimension [j], in the order
    in which their component of dimension [i] occurs among the first [n]
    components. *)
Definition pair_points (st : NystromD) (i j n : Z) : list Z :=
  point_of st <$>
    filter (fun l => dim_of st l = i /\
                     point_of st l * get_num_dimensions st + j
                       ∈ m_basis_inds st)
      (seqZ 0 n).

(** The terms [hessian] adds to cell [(i, j)] while it visits the first [n]
    components. *)
Definition hessian_terms (st : NystromD) (query i j n : Z) : list float :=
  (fun a => kernel.dx_i_dx_j_dx_k_dot_vec_component (m_kernel st)
              a query (beta_slice st a) i j)
    <$> pair_points st i j n.

(** The third-derivative contraction does not depend on the order of its
    two dimension arguments. *)
Definition contraction_symmetric (k : kernel.Base) : Prop :=
  forall a b v i j,
    kernel.dx_i_dx_j_dx_k_dot_vec_component k a b v i j
    = kernel.dx_i_dx_j_dx_k_dot_vec_component k a b v j i.

(** [hessian_diag] after [n] components. *)
Definition hessian_diag_inv (st : NystromD) (query n : Z) (d : list float) : Prop :=
  Z.of_nat (length d) = get_num_dimensions st /\
  forall i, 0 <= i < get_num_dimensions st ->
    vec_get d i = Some (float_sum (hessian_diag_terms st query i n)).

(** [grad] after [n] components. *)
Definition grad_value_inv (st : NystromD) (query n : Z) (g : list float) : Prop :=
  Z.of_nat (length g) = get_num_dimensions st /\
  forall i, 0 <= i < get_num_dimensions st ->
    vec_get g i = Some (float_diff 0%float (grad_terms st query i n)).

(** [hessian] after [n] components. *)
Definition hessian_value_inv (st : NystromD) (query n : Z)
    (H : SGMatrix float) : Prop :=
  num_rows H = get_num_dimensions st /\
  num_cols H = get_num_dimensions st /\
  Z.of_nat (length (matrix H)) = get_num_dimensions st * get_num_dimensions st /\
  forall i j, 0 <= i < get_num_dimensions st -> 0 <= j < get_num_dimensions st ->
    mat_get H i j = Some (float_sum (hessian_terms st query i j n)).

(** The inner loop of [hessian] for a component of (point [a], dimension
    [i]) after [m] components: row [i] has received the term of every
    dimension of [a] met so far, the other rows are as in [H0]. *)
Definition hessian_row_inv (st : NystromD) (query : Z) (H0 : SGMatrix float)
    (a i m : Z) (H : SGMatrix float) : Prop :=
  num_rows H = get_num_dimensions st /\
  num_cols H = num_cols H0 /\
  Z.of_nat (length (matrix H)) = get_num_dimensions st * get_num_dimensions st /\
  forall i' j, 0 <= i' < get_num_dimensions st -> 0 <= j < get_num_dimensions st ->
    (i' <> i -> mat_get H i' j = mat_get H0 i' j) /\
    ((forall k, 0 <= k < m ->
        vec_get (m_basis_inds st) k <> Some (a * get_num_dimensions st + j)) ->
     mat_get H i j = mat_get H0 i j) /\
    ((exists k, 0 <= k < m /\
        vec_get (m_basis_inds st) k = Some (a * get_num_dimensions st + j)) ->
     exists x, mat_get H0 i j = Some x /\
       mat_get H i j
       = Some (x + kernel.dx_i_dx_j_dx_k_dot_vec_component (m_kernel st)
                     a query (beta_slice st a) i j)%float).

(** The terms [compute_h] adds to the entry of (point [a], dimension [i])
    on a fully active basis: the sweep value [b] runs over [[0, N_data*D)]
    but only meets components while [b] is a basis point, so the terms are
    those of the points [b] below [min(N_data*D, N_basis)], each with all
    its dimensions. *)
Definition h_terms_swept (st : NystromD) (a i : Z) : list float :=
  b ← seqZ 0 (Z.min (get_num_data st * get_num_dimensions st)
                     (get_num_basis st));
  (fun j => kernel.dx_dy_dy_component (m_kernel st) a b i j)
    <$> seqZ 0 (get_num_dimensions st).

(** [h] after [n] entries are complete, on a fully active basis. *)
Definition h_swept_inv (st : NystromD) (n : Z) (h : list float) : Prop :=
  Z.of_nat (length h) = get_num_basis st * get_num_dimensions st /\
  forall k, 0 <= k < get_num_basis st * get_num_dimensions st ->
    vec_get h k =
      Some (if decide (k < n)
            then float_sum
                   (h_terms_swept st (idx_to_ai k (get_num_dimensions st)).1
                                     (idx_to_ai k (get_num_dimensions st)).2)
            else 0%float).

(** ** Concrete instances, used to run the model *)

Module Fixtures.

(** An ascending sort of index vectors, standing in for [CMath::qsort]. *)
Definition qsort_index : list Z -> list Z := merge_sort Z.le.

(** Fresh buffers filled with an arbitrary non-zero pattern. *)
Definition stale (n : nat) : float := PrimFloat.of_uint63 (Uint63.of_Z (Z.of_nat n + 7)).

(** A 2 x 2 mask (row = dimension, column = point) with cells
    (0,0), (0,1) and (1,1) active. *)
Definition mask_2x2 : SGMatrix bool := mkSGMatrix 2 2 [true; false; true; true].

(** A kernel service with integer-valued contractions; its mixed second
    derivative is symmetric. *)
Definition k_int : kernel.Base :=
  kernel.mkBase
    (fun a b i => float_of_index (a + 2 * b + 3 * i + 1))
    (fun a b i j => float_of_index ((a + 1) * (b + 1) + i * j))
    (fun a b i j => float_of_index (a + b + i + j + 1))
    (fun a b i => [float_of_index (a + b + i); float_of_index (a + b + i + 1)])
    (fun a b v i j => (float_sum v * float_of_index (a + b + i + j + 1))%float).

(** Two points in two dimensions, components 0, 2 and 3 active. *)
Definition st_2x2 : NystromD :=
  mkNystromD [0; 2; 3] [1%float; 2%float; 3%float] k_int 2 2 2.

(** Two points in two dimensions; only dimension 0 is active. *)
Definition st_dim0 : NystromD :=
  mkNystromD [0; 2] [1%float; 2%float] k_int 2 2 2.

(** Two points in two dimensions, the basis being the data with every
    component active. *)
Definition st_full : NystromD :=
  mkNystromD [0; 1; 2; 3] [1%float; 2%float; 3%float; 4%float] k_int 2 2 2.

(** One basis point and two data points in one dimension, the explicit basis
    fully active. *)
Definition st_explicit : NystromD :=
  mkNystromD [0] [1%float] k_int 1 1 2.

(** Two basis points, one data point, one dimension. *)
Definition st_wide_basis : NystromD :=
  mkNystromD [0; 1] [1%float; 2%float] k_int 1 2 1.

End Fixtures.

(** * Proofs *)

(** ** Counted loops *)

Section LoopRules.
Context {S : Type}.
Implicit Types (body : Z -> S -> option S).

Lemma iter_from_inv (P : Z -> S -> Prop) (body : Z -> S -> option S) :
  forall fuel i s,
    P i s ->
    (forall j t, i <= j < i + Z.of_nat fuel -> P j t ->
       exists t', body j t = Some t' /\ P (j + 1) t') ->
    exists s', iter_from fuel i body s = Some s' /\ P (i + Z.of_nat fuel) s'.
Proof.
  induction fuel as [|fuel IH]; intros i s Hi Hstep.
  - exists s. split; [reflexivity|]. now replace (i + Z.of_nat 0) with i by lia.
  - destruct (Hstep i s) as (t & Ht & HP); [lia|assumption|].
    destruct (IH (i + 1) t HP) as (s' & Hs' & HP').
    + intros j u Hj Hu. apply Hstep; [lia|assumption].
    + exists s'. cbn [iter_from]. rewrite Ht. split; [assumption|].
      now replace (i + Z.of_nat (Datatypes.S fuel)) with (i + 1 + Z.of_nat fuel) by lia.
Qed.

(** Total-correctness rule of the counted loop: an invariant that holds on
    entry and is kept by every iteration (which must not fail) holds on exit. *)
Lemma for_loop_inv (P : Z -> S -> Prop) n
    (body : Z -> S -> option S) s :
  P 0 s ->
  (forall j t, 0 <= j < n -> P j t ->
     exists t', body j t = Some t' /\ P (j + 1) t') ->
  exists s', for_loop n body s = Some s' /\ P (Z.max 0 n) s'.
Proof.
  intros H0 Hstep. unfold for_loop.
  destruct (iter_from_inv P body (Z.to_nat n) 0 s H0) as (s' & Hs' & HP).
  - intros j t Hj. apply Hstep. lia.
  - exists s'. split; [assumption|].
    now replace (Z.max 0 n) with (0 + Z.of_nat (Z.to_nat n)) by lia.
Qed.

End LoopRules.

(** Two loops over the same range, run side by side. *)
Lemma iter_from_rel {S T : Type} (R : Z -> S -> T -> Prop)
    (f : Z -> S -> option S) (g : Z -> T -> option T) :
  forall fuel i s t,
    R i s t ->
    (forall j u v, i <= j < i + Z.of_nat fuel -> R j u v ->
       exists u' v', f j u = Some u' /\ g j v = Some v' /\ R (j + 1) u' v') ->
    exists s' t', iter_from fuel i f s = Some s' /\
                  iter_from fuel i g t = Some t' /\
                  R (i + Z.of_nat fuel) s' t'.
Proof.
  induction fuel as [|fuel IH]; intros i s t Hi Hstep.
  - exists s, t. repeat split. now replace (i + Z.of_nat 0) with i by lia.
  - destruct (Hstep i s t) as (u & v & Hu & Hv & HR); [lia|assumption|].
    destruct (IH (i + 1) u v HR) as (s' & t' & Hs' & Ht' & HR').
    + intros j a b Hj Hab. apply Hstep; [lia|assumption].
    + exists s', t'. cbn [iter_from]. rewrite Hu, Hv. repeat split; try assumption.
      now replace (i + Z.of_nat (Datatypes.S fuel)) with (i + 1 + Z.of_nat fuel) by lia.
Qed.

Lemma for_loop_rel {S T : Type} (R : Z -> S -> T -> Prop) n
    (f : Z -> S -> option S) (g : Z -> T -> option T) s t :
  R 0 s t ->
  (forall j u v, 0 <= j < n -> R j u v ->
     exists u' v', f j u = Some u' /\ g j v = Some v' /\ R (j + 1) u' v') ->
  exists s' t', for_loop n f s = Some s' /\ for_loop n g t = Some t' /\
                R (Z.max 0 n) s' t'.
Proof.
  intros H0 Hstep. unfold for_loop.
  destruct (iter_from_rel R f g (Z.to_nat n) 0 s t H0) as (s' & t' & Hs' & Ht' & HR).
  - intros j u v Hj. apply Hstep. lia.
  - exists s', t'. repeat split; try assumption.
    now replace (Z.max 0 n) with (0 + Z.of_nat (Z.to_nat n)) by lia.
Qed.

(** ** Vectors and matrices *)

Section ContainerFacts.
Context {A : Type}.
Implicit Types (v : list A) (m : SGMatrix A).

Lemma vec_get_lookup v i :
  0 <= i -> vec_get v i = v !! Z.to_nat i.
Proof. intros Hi. unfold vec_get. now rewrite decide_True. Qed.

Lemma vec_get_Some_range v i x :
  vec_get v i = Some x -> 0 <= i < Z.of_nat (length v).
Proof.
  unfold vec_get. destruct (decide (0 <= i)) as [Hi|]; [|discriminate].
  intros H. apply lookup_lt_Some in H. lia.
Qed.

Lemma vec_get_in_range v i :
  0 <= i < Z.of_nat (length v) -> exists x, vec_get v i = Some x.
Proof.
  intros Hi. rewrite vec_get_lookup by lia.
  destruct (lookup_lt_is_Some_2 v (Z.to_nat i)) as [x Hx]; [lia|].
  now exists x.
Qed.

Lemma vec_get_elem_of v i x : vec_get v i = Some x -> x ∈ v.
Proof.
  unfold vec_get. destruct (decide (0 <= i)); [|discriminate].
  intros H. eapply list_elem_of_lookup_2; eassumption.
Qed.

Lemma vec_set_in_range v i x :
  0 <= i < Z.of_nat (length v) ->
  vec_set v i x = Some (<[Z.to_nat i := x]> v).
Proof. intros Hi. unfold vec_set. now rewrite decide_True. Qed.

Lemma vec_set_Some v i x v' :
  vec_set v i x = Some v' ->
  0 <= i < Z.of_nat (length v) /\ v' = <[Z.to_nat i := x]> v.
Proof.
  unfold vec_set. destruct (decide _) as [Hi|]; [|discriminate].
  intros [= <-]. now split.
Qed.

Lemma vec_set_length v i x v' :
  vec_set v i x = Some v' -> length v' = length v.
Proof. intros [_ ->]%vec_set_Some. apply length_insert. Qed.

Lemma vec_get_set_eq v i x v' :
  vec_set v i x = Some v' -> vec_get v' i = Some x.
Proof.
  intros [Hi ->]%vec_set_Some. rewrite vec_get_lookup by lia.
  apply list_lookup_insert_eq. lia.
Qed.

Lemma vec_get_set_ne v i x v' j :
  vec_set v i x = Some v' -> j <> i -> vec_get v' j = vec_get v j.
Proof.
  intros [Hi ->]%vec_set_Some Hne. unfold vec_get.
  destruct (decide (0 <= j)); [|reflexivity].
  apply list_lookup_insert_ne. lia.
Qed.

End ContainerFacts.

(** ** C3: the index mapper *)

Lemma idx_to_ai_div_mod idx D :
  0 < D -> 0 <= idx -> idx_to_ai idx D = (idx / D, idx mod D).
Proof.
  intros HD Hidx. unfold idx_to_ai.
  rewrite Z.quot_div_nonneg, Z.rem_mod_nonneg by lia. reflexivity.
Qed.

Lemma idx_to_ai_encode p d D :
  0 < D -> 0 <= p -> 0 <= d < D -> idx_to_ai (p * D + d) D = (p, d).
Proof.
  intros HD Hp Hd. rewrite idx_to_ai_div_mod by nia. f_equal.
  - symmetry. apply (Z.div_unique_pos _ _ p d); lia.
  - symmetry. apply (Z.mod_unique_pos _ _ p d); lia.
Qed.

Lemma idx_to_ai_decode idx D a i :
  D <> 0 -> idx_to_ai idx D = (a, i) -> idx = a * D + i.
Proof.
  intros HD [= <- <-]. rewrite (Z.quot_rem' idx D) at 1. lia.
Qed.

Lemma idx_to_ai_inj idx idx' D :
  D <> 0 -> idx_to_ai idx D = idx_to_ai idx' D -> idx = idx'.
Proof.
  intros HD H. destruct (idx_to_ai idx' D) as [a i] eqn:E.
  apply idx_to_ai_decode in H; [|assumption].
  apply idx_to_ai_decode in E; [|assumption]. lia.
Qed.

Lemma idx_to_ai_dim_range idx D :
  0 < D -> 0 <= idx -> 0 <= (idx_to_ai idx D).2 < D.
Proof.
  intros HD Hidx. rewrite idx_to_ai_div_mod by lia. cbn.
  apply Z.mod_pos_bound. lia.
Qed.

Lemma idx_to_ai_point_range idx D N :
  0 < D -> 0 <= idx < N * D -> 0 <= (idx_to_ai idx D).1 < N.
Proof.
  intros HD Hidx. rewrite idx_to_ai_div_mod by lia. cbn. split.
  - apply Z.div_pos; lia.
  - apply Z.div_lt_upper_bound; lia.
Qed.

(** C3. For every [D > 0] and every non-negative [idx], [idx_to_ai idx D] is
    the pair of the integer quotient and remainder of [idx] by [D]; the
    returned pair satisfies [point * D + dimension = idx] with the dimension
    in [[0, D)]; and decoding an encoded pair gives the pair back. *)
Theorem idx_to_ai_round_trip (idx D : Z) :
  0 < D -> 0 <= idx ->
  idx_to_ai idx D = (idx / D, idx mod D) /\
  (idx_to_ai idx D).1 * D + (idx_to_ai idx D).2 = idx /\
  0 <= (idx_to_ai idx D).2 < D /\
  idx_to_ai ((idx_to_ai idx D).1 * D + (idx_to_ai idx D).2) D = idx_to_ai idx D /\
  (forall p d, 0 <= p -> 0 <= d < D -> idx_to_ai (p * D + d) D = (p, d)).
Proof.
  intros HD Hidx.
  assert (Hdec : (idx_to_ai idx D).1 * D + (idx_to_ai idx D).2 = idx).
  { symmetry. apply idx_to_ai_decode; [lia|]. now destruct (idx_to_ai idx D). }
  split; [now apply idx_to_ai_div_mod|].
  split; [exact Hdec|].
  split; [now apply idx_to_ai_dim_range|].
  split; [now rewrite Hdec|].
  intros p d Hp Hd. now apply idx_to_ai_encode.
Qed.

Lemma idx_to_ai_round_trip_witness :
  idx_to_ai 7 3 = (7 / 3, 7 mod 3) /\
  (idx_to_ai 7 3).1 * 3 + (idx_to_ai 7 3).2 = 7 /\
  0 <= (idx_to_ai 7 3).2 < 3 /\
  idx_to_ai ((idx_to_ai 7 3).1 * 3 + (idx_to_ai 7 3).2) 3 = idx_to_ai 7 3 /\
  (forall p d, 0 <= p -> 0 <= d < 3 -> idx_to_ai (p * 3 + d) 3 = (p, d)).
Proof. apply (idx_to_ai_round_trip 7 3); lia. Defined.

(** ** C4: the basis selector *)

Lemma StronglySorted_lt_le (l : list Z) :
  StronglySorted Z.lt l -> StronglySorted Z.le l.
Proof.
  induction 1 as [|x l Hl IH Hx]; constructor; [assumption|].
  eapply Forall_impl; [exact Hx|]. intros y Hy. cbn in Hy. lia.
Qed.

Lemma StronglySorted_lt_snoc (l : list Z) (x : Z) :
  StronglySorted Z.lt l -> (forall y, y ∈ l -> y < x) ->
  StronglySorted Z.lt (l ++ [x]).
Proof.
  intros Hl Hx. apply StronglySorted_app_2.
  - intros y z Hy Hz. apply list_elem_of_singleton in Hz as ->. now apply Hx.
  - exact Hl.
  - repeat constructor.
Qed.

Lemma StronglySorted_lt_NoDup (l : list Z) :
  StronglySorted Z.lt l -> NoDup l.
Proof.
  induction 1 as [|x l Hl IH Hx]; constructor; [|assumption].
  intros Hin. rewrite Forall_forall in Hx. specialize (Hx x Hin). lia.
Qed.

Section BasisSelector.
Variable qsort : list Z -> list Z.
Hypothesis qsort_perm : forall l, qsort l ≡ₚ l.
Hypothesis qsort_sorted : forall l, Sorted Z.le (qsort l).

(** Sorting an already ascending sequence returns it. *)
Lemma qsort_ascending (l : list Z) : StronglySorted Z.lt l -> qsort l = l.
Proof.
  intros Hl. apply (Sorted_unique Z.le).
  - apply qsort_sorted.
  - apply StronglySorted_Sorted, StronglySorted_lt_le, Hl.
  - apply qsort_perm.
Qed.

Lemma scan_mask (basis_mask : SGMatrix bool) :
  mat_wf basis_mask ->
  exists dyn,
    for_loop (num_rows basis_mask * num_cols basis_mask) (fun i dyn =>
      m ← vec_get (matrix basis_mask) i;
      Some (if m : bool then dyn ++ [i] else dyn)) [] = Some dyn /\
    scan_inv basis_mask (num_rows basis_mask * num_cols basis_mask) dyn.
Proof.
  intros (Hr & Hc & Hlen).
  set (n := num_rows basis_mask * num_cols basis_mask) in *.
  assert (Hn : 0 <= n) by (unfold n; nia).
  destruct (for_loop_inv (scan_inv basis_mask) n
    (fun i dyn => m ← vec_get (matrix basis_mask) i;
                  Some (if m : bool then dyn ++ [i] else dyn)) [])
    as (dyn & Hrun & Hinv).
  - split; [constructor|]. intros x. split.
    + intros Hx. now apply elem_of_nil in Hx.
    + intros [Hx _]. lia.
  - intros j dyn Hj [Hsorted Hmem].
    destruct (vec_get_in_range (matrix basis_mask) j) as [m Hm]; [lia|].
    rewrite Hm. cbn. eexists. split; [reflexivity|].
    destruct m.
    + split.
      * apply StronglySorted_lt_snoc; [assumption|].
        intros y Hy. apply Hmem in Hy. lia.
      * intros x. rewrite elem_of_app, list_elem_of_singleton, Hmem. split.
        -- intros [[Hx Hg]| ->]; (split; [lia|assumption]).
        -- intros [Hx Hg]. destruct (decide (x = j)); [now right|left].
           split; [lia|assumption].
    + split; [assumption|]. intros x. rewrite Hmem. split.
      * intros [Hx Hg]. split; [lia|assumption].
      * intros [Hx Hg]. split; [|assumption].
        destruct (decide (x = j)) as [->|]; [congruence|lia].
  - exists dyn. split; [exact Hrun|]. now rewrite Z.max_r in Hinv.
Qed.

(** C4. For every well-formed boolean mask, [basis_inds_from_mask] returns
    a sequence that contains a flat index exactly when the index lies in
    [[0, num_rows*num_cols)] and its mask entry is true, and the sequence is
    strictly increasing. *)
Theorem basis_inds_from_mask_exact (basis_mask : SGMatrix bool) :
  mat_wf basis_mask ->
  exists inds,
    basis_inds_from_mask qsort basis_mask = Some inds /\
    (forall i, i ∈ inds <->
       (0 <= i < num_rows basis_mask * num_cols basis_mask /\
        vec_get (matrix basis_mask) i = Some true)) /\
    StronglySorted Z.lt inds.
Proof.
  intros Hwf. destruct (scan_mask basis_mask Hwf) as (dyn & Hrun & Hsorted & Hmem).
  exists dyn. unfold basis_inds_from_mask. rewrite Hrun. cbn.
  rewrite (qsort_ascending dyn Hsorted). auto.
Qed.

End BasisSelector.

Lemma qsort_index_perm (l : list Z) : Fixtures.qsort_index l ≡ₚ l.
Proof. apply merge_sort_Permutation. Qed.

Lemma qsort_index_sorted (l : list Z) : Sorted Z.le (Fixtures.qsort_index l).
Proof. apply (Sorted_merge_sort Z.le). Qed.

Lemma mask_2x2_wf : mat_wf Fixtures.mask_2x2.
Proof. unfold mat_wf. cbn. lia. Qed.

Lemma basis_inds_from_mask_exact_witness :
  exists inds,
    basis_inds_from_mask Fixtures.qsort_index Fixtures.mask_2x2 = Some inds /\
    (forall i, i ∈ inds <->
       (0 <= i < num_rows Fixtures.mask_2x2 * num_cols Fixtures.mask_2x2 /\
        vec_get (matrix Fixtures.mask_2x2) i = Some true)) /\
    StronglySorted Z.lt inds.
Proof.
  apply (basis_inds_from_mask_exact Fixtures.qsort_index
           qsort_index_perm qsort_index_sorted Fixtures.mask_2x2 mask_2x2_wf).
Defined.

Example basis_inds_from_mask_2x2 :
  basis_inds_from_mask Fixtures.qsort_index Fixtures.mask_2x2 = Some [0; 2; 3].
Proof. vm_compute. reflexivity. Qed.

(** ** C9: installing the index set *)

Lemma set_insert_elem_of (x y : Z) (s : list Z) :
  y ∈ set_insert x s <-> y = x \/ y ∈ s.
Proof.
  induction s as [|z s IH]; cbn.
  - rewrite list_elem_of_singleton, elem_of_nil. tauto.
  - destruct (decide (x < z)); [|destruct (decide (z < x))].
    + rewrite !elem_of_cons. tauto.
    + rewrite !elem_of_cons, IH. tauto.
    + assert (x = z) as -> by lia. rewrite !elem_of_cons. tauto.
Qed.

Lemma set_insert_sorted (x : Z) (s : list Z) :
  StronglySorted Z.lt s -> StronglySorted Z.lt (set_insert x s).
Proof.
  induction 1 as [|z s Hs IH Hz]; cbn.
  - repeat constructor.
  - destruct (decide (x < z)); [|destruct (decide (z < x))].
    + constructor; [now constructor|].
      constructor; [assumption|].
      eapply Forall_impl; [exact Hz|]. intros w Hw. cbn in Hw. lia.
    + constructor; [assumption|].
      rewrite Forall_forall. intros w Hw.
      apply set_insert_elem_of in Hw as [->|Hw]; [assumption|].
      rewrite Forall_forall in Hz. now apply Hz.
    + now constructor.
Qed.

Lemma set_difference_elem_of (l1 l2 : list Z) :
  StronglySorted Z.lt l1 -> StronglySorted Z.lt l2 ->
  forall z, z ∈ set_difference l1 l2 <-> z ∈ l1 /\ z ∉ l2.
Proof.
  intros H1. revert l2.
  induction H1 as [|x l1 Hl1 IH1 Hx]; intros l2 H2 z.
  - destruct l2; cbn; rewrite elem_of_nil; tauto.
  - rewrite Forall_forall in Hx.
    induction H2 as [|y l2 Hl2 IH2 Hy].
    + cbn. rewrite elem_of_nil. tauto.
    + assert (H2' : StronglySorted Z.lt (y :: l2)) by (now constructor).
      rewrite Forall_forall in Hy.
      change (set_difference (x :: l1) (y :: l2)) with
        (if decide (x < y) then x :: set_difference l1 (y :: l2)
         else if decide (y < x) then set_difference (x :: l1) l2
         else set_difference l1 l2).
      destruct (decide (x < y)); [|destruct (decide (y < x))].
      * rewrite elem_of_cons, IH1 by exact H2'.
        rewrite !elem_of_cons. split.
        -- intros [->|[Hz Hn]]; [|tauto].
           split; [now left|]. intros [->|Hin]; [lia|].
           specialize (Hy _ Hin). lia.
        -- intros [[->|Hz] Hn]; [now left|right; tauto].
      * rewrite IH2. rewrite !elem_of_cons. split.
        -- intros [Hz Hn]. split; [assumption|].
           intros [->|Hin]; [|contradiction].
           destruct Hz as [->|Hz]; [lia|]. specialize (Hx _ Hz). lia.
        -- tauto.
      * assert (x = y) as <- by lia.
        rewrite IH1 by assumption. rewrite !elem_of_cons. split.
        -- intros [Hz Hn]. split; [now right|].
           intros [->|Hin]; [|contradiction]. specialize (Hx _ Hz). lia.
        -- intros [[->|Hz] Hn]; [tauto|]. tauto.
Qed.

(** The owning points of an index vector, as [get_basis_point_inds]
    returns them: ascending, and exactly the points of its components. *)
Lemma get_basis_point_inds_spec (st : NystromD) (basis_inds : list Z) :
  exists points,
    get_basis_point_inds st basis_inds = Some points /\
    StronglySorted Z.lt points /\
    forall p, p ∈ points <->
      exists k idx, vec_get basis_inds k = Some idx /\
                    (idx_to_ai idx (get_num_dimensions st)).1 = p.
Proof.
  unfold get_basis_point_inds.
  match goal with |- exists r, for_loop ?n ?body ?s0 = _ /\ _ =>
    destruct (for_loop_inv (fun i set =>
      StronglySorted Z.lt set /\
      forall p, p ∈ set <->
        exists k idx, 0 <= k < i /\ vec_get basis_inds k = Some idx /\
                      (idx_to_ai idx (get_num_dimensions st)).1 = p)
      n body s0) as (points & Hrun & Hsorted & Hmem) end.
  - split; [constructor|]. intros p. rewrite elem_of_nil. split; [tauto|].
    intros (k & idx & Hk & _). lia.
  - intros j set Hj [Hsorted Hmem].
    destruct (vec_get_in_range basis_inds j Hj) as [idx Hidx].
    rewrite Hidx. cbn. eexists. split; [reflexivity|].
    split; [now apply set_insert_sorted|].
    intros p. rewrite set_insert_elem_of, Hmem. split.
    + intros [->|(k & idx' & Hk & Hget & Hp)].
      * exists j, idx. split; [lia|]. split; [assumption|reflexivity].
      * exists k, idx'. split; [lia|]. split; assumption.
    + intros (k & idx' & Hk & Hget & Hp).
      destruct (decide (k = j)) as [->|].
      * left. rewrite Hidx in Hget. injection Hget as <-. now symmetry.
      * right. exists k, idx'. split; [lia|]. split; assumption.
  - exists points. split; [exact Hrun|]. split; [exact Hsorted|].
    intros p. rewrite Hmem. split.
    + intros (k & idx & _ & Hget & Hp). eauto.
    + intros (k & idx & Hget & Hp). exists k, idx.
      split; [|split; assumption].
      apply vec_get_Some_range in Hget. lia.
Qed.

(** [all_inds] is [0, 1, ..., N-1]. *)
Lemma all_inds_spec (N : Z) :
  exists all,
    for_loop N (fun i all => Some (all ++ [i])) [] = Some all /\
    StronglySorted Z.lt all /\
    forall p, p ∈ all <-> 0 <= p < N.
Proof.
  destruct (for_loop_inv (fun i all =>
      StronglySorted Z.lt all /\ forall p, p ∈ all <-> 0 <= p < i)
    N (fun i all => Some (all ++ [i])) []) as (all & Hrun & Hsorted & Hmem).
  - split; [constructor|]. intros p. rewrite elem_of_nil. lia.
  - intros j all Hj [Hsorted Hmem]. eexists. split; [reflexivity|]. split.
    + apply StronglySorted_lt_snoc; [assumption|].
      intros y Hy. apply Hmem in Hy. lia.
    + intros p. rewrite elem_of_app, list_elem_of_singleton, Hmem. lia.
  - exists all. split; [exact Hrun|]. split; [exact Hsorted|].
    intros p. rewrite Hmem. lia.
Qed.

(** C9. For every estimator state with a positive dimension and every
    well-formed mask, [set_basis_inds_from_mask] returns; the state it
    leaves has [m_basis_inds] equal to [basis_inds_from_mask] of the mask
    and every other member as before.  The diagnostic pass only produces
    log lines: one warning for each point of [[0, num_cols)] that owns no
    component of the new index set, then the summary line. *)
Theorem set_basis_inds_from_mask_frame (qsort : list Z -> list Z)
    (st : NystromD) (basis_mask : SGMatrix bool) :
  0 < get_num_dimensions st ->
  mat_wf basis_mask ->
  exists inds st' unused,
    basis_inds_from_mask qsort basis_mask = Some inds /\
    set_basis_inds_from_mask qsort st basis_mask
      = Some (st',
              map Warn_zero_components unused ++
              [Info_using_components (Z.of_nat (length inds))
                 (num_rows basis_mask) (num_cols basis_mask)
                 (num_rows basis_mask * num_cols basis_mask)]) /\
    m_basis_inds st' = inds /\
    m_beta st' = m_beta st /\
    m_kernel st' = m_kernel st /\
    get_num_dimensions st' = get_num_dimensions st /\
    get_num_basis st' = get_num_basis st /\
    get_num_data st' = get_num_data st /\
    forall p, p ∈ unused <->
      (0 <= p < num_cols basis_mask /\ forall k i, ~ component_of st' k p i).
Proof.
  intros _ Hwf. destruct (scan_mask basis_mask Hwf) as (dyn & Hrun & _).
  assert (Hinds : basis_inds_from_mask qsort basis_mask = Some (qsort dyn)).
  { unfold basis_inds_from_mask. now rewrite Hrun. }
  set (st' := with_basis_inds st (qsort dyn)).
  destruct (get_basis_point_inds_spec st' (qsort dyn))
    as (points & Hpoints & Hpsorted & Hpmem).
  destruct (all_inds_spec (num_cols basis_mask))
    as (all & Hall & Hasorted & Hamem).
  exists (qsort dyn), st', (set_difference all points).
  split; [exact Hinds|]. split.
  { unfold set_basis_inds_from_mask. rewrite Hinds. cbn.
    fold st'. rewrite Hpoints. cbn. rewrite Hall. cbn. reflexivity. }
  do 6 (split; [reflexivity|]).
  intros p. rewrite set_difference_elem_of by assumption.
  rewrite Hamem, Hpmem. split.
  - intros [Hp Hnone]. split; [assumption|].
    intros k i (idx & Hget & Hai). apply Hnone.
    exists k, idx. split; [exact Hget|].
    cbn in Hai. change (get_num_dimensions st') with (get_num_dimensions st).
    now rewrite Hai.
  - intros [Hp Hnone]. split; [assumption|].
    intros (k & idx & Hget & Hai).
    apply (Hnone k (idx_to_ai idx (get_num_dimensions st')).2).
    exists idx. split; [exact Hget|].
    rewrite <- Hai. now destruct (idx_to_ai idx (get_num_dimensions st')).
Qed.

Lemma set_basis_inds_from_mask_frame_witness :
  exists inds st' unused,
    basis_inds_from_mask Fixtures.qsort_index Fixtures.mask_2x2 = Some inds /\
    set_basis_inds_from_mask Fixtures.qsort_index Fixtures.st_2x2
      Fixtures.mask_2x2
      = Some (st',
              map Warn_zero_components unused ++
              [Info_using_components (Z.of_nat (length inds))
                 (num_rows Fixtures.mask_2x2) (num_cols Fixtures.mask_2x2)
                 (num_rows Fixtures.mask_2x2 * num_cols Fixtures.mask_2x2)]) /\
    m_basis_inds st' = inds /\
    m_beta st' = m_beta Fixtures.st_2x2 /\
    m_kernel st' = m_kernel Fixtures.st_2x2 /\
    get_num_dimensions st' = get_num_dimensions Fixtures.st_2x2 /\
    get_num_basis st' = get_num_basis Fixtures.st_2x2 /\
    get_num_data st' = get_num_data Fixtures.st_2x2 /\
    forall p, p ∈ unused <->
      (0 <= p < num_cols Fixtures.mask_2x2 /\
       forall k i, ~ component_of st' k p i).
Proof.
  apply (set_basis_inds_from_mask_frame Fixtures.qsort_index
           Fixtures.st_2x2 Fixtures.mask_2x2);
    [reflexivity|exact mask_2x2_wf].
Defined.

(** A mask that leaves point 1 without any component: one warning, naming
    point 1, and none of its components in the index set. *)
Example set_basis_inds_from_mask_unused_point :
  set_basis_inds_from_mask Fixtures.qsort_index Fixtures.st_2x2
    (mkSGMatrix 2 2 [true; true; false; false])
  = Some (with_basis_inds Fixtures.st_2x2 [0; 1],
          [Warn_zero_components 1; Info_using_components 2 2 2 4]).
Proof. vm_compute. reflexivity. Qed.

(** ** C8: log-density *)

Lemma float_sum_snoc (terms : list float) (t : float) :
  float_sum (terms ++ [t]) = (float_sum terms + t)%float.
Proof. unfold float_sum. now rewrite foldl_app. Qed.

Lemma log_pdf_terms_length (st : NystromD) (query : Z) :
  beta_fitted st ->
  Z.of_nat (length (log_pdf_terms st query)) = get_system_size st.
Proof.
  intros Hbeta. unfold log_pdf_terms, get_system_size.
  rewrite length_zip_with, Hbeta. lia.
Qed.

(** C8. For every state with a positive dimension and one coefficient per
    basis component, and every query index, [log_pdf] returns the sum, in
    component order, of [beta[k] * dx_component(a, query, i)] over the
    active components [k], where [(a, i)] is the index mapper's image of the
    component; the sum has [get_system_size] terms. *)
Theorem log_pdf_is_component_sum (st : NystromD) (query : Z) :
  0 < get_num_dimensions st ->
  beta_fitted st ->
  log_pdf st query = Some (float_sum (log_pdf_terms st query)) /\
  Z.of_nat (length (log_pdf_terms st query)) = get_system_size st.
Proof.
  intros _ Hbeta. split; [|now apply log_pdf_terms_length].
  pose proof (log_pdf_terms_length st query Hbeta) as Hlen.
  unfold log_pdf.
  destruct (for_loop_inv
    (fun k acc => acc = float_sum (take (Z.to_nat k) (log_pdf_terms st query)))
    (get_system_size st)
    (fun idx_l beta_sum =>
       ind_l ← vec_get (m_basis_inds st) idx_l;
       beta_l ← vec_get (m_beta st) idx_l;
       Some (beta_sum + beta_l *
         kernel.dx_component (m_kernel st)
           (idx_to_ai ind_l (get_num_dimensions st)).1 query
           (idx_to_ai ind_l (get_num_dimensions st)).2)%float) 0%float)
    as (acc & Hrun & Hacc).
  - reflexivity.
  - intros k acc Hk ->. unfold get_system_size in Hk.
    destruct (vec_get_in_range (m_basis_inds st) k Hk) as [idx Hidx].
    destruct (vec_get_in_range (m_beta st) k) as [b Hb];
      [rewrite Hbeta; lia|].
    rewrite Hidx. cbn. rewrite Hb. cbn. eexists. split; [reflexivity|].
    replace (Z.to_nat (k + 1)) with (Datatypes.S (Z.to_nat k)) by lia.
    rewrite vec_get_lookup in Hidx by lia. rewrite vec_get_lookup in Hb by lia.
    erewrite take_S_r.
    + rewrite float_sum_snoc. reflexivity.
    + unfold log_pdf_terms. rewrite lookup_zip_with, Hidx. cbn.
      rewrite Hb. reflexivity.
  - rewrite Hrun. f_equal. subst acc. f_equal.
    apply take_ge. unfold get_system_size in *. lia.
Qed.

Lemma st_2x2_beta_fitted : beta_fitted Fixtures.st_2x2.
Proof. reflexivity. Qed.

Lemma log_pdf_is_component_sum_witness :
  log_pdf Fixtures.st_2x2 1
    = Some (float_sum (log_pdf_terms Fixtures.st_2x2 1)) /\
  Z.of_nat (length (log_pdf_terms Fixtures.st_2x2 1))
    = get_system_size Fixtures.st_2x2.
Proof.
  apply (log_pdf_is_component_sum Fixtures.st_2x2 1);
    [reflexivity|exact st_2x2_beta_fitted].
Defined.

(** ** Basis components *)

Lemma new_vector_length (uninit : nat -> float) (n : Z) :
  0 <= n -> Z.of_nat (length (vec_zero (new_vector uninit n))) = n.
Proof.
  intros Hn. unfold vec_zero, new_vector.
  rewrite length_replicate, length_map, length_seq. lia.
Qed.

Lemma vec_zero_get (v : list float) (i : Z) :
  0 <= i < Z.of_nat (length v) -> vec_get (vec_zero v) i = Some 0%float.
Proof.
  intros Hi. rewrite vec_get_lookup by lia. unfold vec_zero.
  apply lookup_replicate_2. lia.
Qed.

Section Components.
Variable st : NystromD.
Hypothesis Hinv : estimator_inv st.

Let D := get_num_dimensions st.

Lemma component_index_nonneg k idx :
  vec_get (m_basis_inds st) k = Some idx ->
  0 <= idx < get_num_basis st * D.
Proof.
  intros Hk. apply vec_get_elem_of in Hk.
  pose proof (inv_range st Hinv) as Hr. rewrite Forall_forall in Hr.
  now apply Hr.
Qed.

Lemma component_dim_range k idx :
  vec_get (m_basis_inds st) k = Some idx ->
  0 <= (idx_to_ai idx D).2 < D.
Proof.
  intros Hk. apply component_index_nonneg in Hk.
  apply idx_to_ai_dim_range; [apply (inv_dims st Hinv)|lia].
Qed.

Lemma component_lookup_inj k k' idx :
  vec_get (m_basis_inds st) k = Some idx ->
  vec_get (m_basis_inds st) k' = Some idx ->
  k = k'.
Proof.
  intros Hk Hk'.
  pose proof (vec_get_Some_range _ _ _ Hk).
  pose proof (vec_get_Some_range _ _ _ Hk').
  rewrite vec_get_lookup in Hk by lia. rewrite vec_get_lookup in Hk' by lia.
  pose proof (StronglySorted_lt_NoDup _ (inv_sorted st Hinv)) as Hnd.
  pose proof (NoDup_lookup _ _ _ _ Hnd Hk Hk'). lia.
Qed.

(** Two components with the same point and dimension are the same one. *)
Lemma component_of_inj k k' a i :
  component_of st k a i -> component_of st k' a i -> k = k'.
Proof.
  intros (idx & Hk & Hai) (idx' & Hk' & Hai').
  assert (idx = idx') as <-.
  { apply (idx_to_ai_inj idx idx' D).
    - pose proof (inv_dims st Hinv). unfold D. lia.
    - unfold D. congruence. }
  eapply component_lookup_inj; eassumption.
Qed.

End Components.

(** ** C7: the beta slice of a basis point *)

Section BetaSlice.
Variable uninit : nat -> float.
Variable st : NystromD.
Hypothesis Hinv : estimator_inv st.
Hypothesis Hbeta : beta_fitted st.

Lemma slice_step (a k : Z) (beta_a : list float) :
  0 <= k < get_system_size st ->
  slice_inv st a k beta_a ->
  exists beta_a',
    (ind_k ← vec_get (m_basis_inds st) k;
     if decide (a <> (idx_to_ai ind_k (get_num_dimensions st)).1)
     then Some beta_a
     else beta_k ← vec_get (m_beta st) k;
          vec_set beta_a (idx_to_ai ind_k (get_num_dimensions st)).2 beta_k)
    = Some beta_a' /\
    slice_inv st a (k + 1) beta_a'.
Proof.
  intros Hk (Hlen & Hset & Hzero). unfold get_system_size in Hk.
  destruct (vec_get_in_range (m_basis_inds st) k Hk) as [idx Hidx].
  rewrite Hidx. cbn.
  destruct (idx_to_ai idx (get_num_dimensions st)) as [b j] eqn:Hai. cbn.
  pose proof (component_dim_range st Hinv k idx Hidx) as Hj.
  rewrite Hai in Hj. cbn in Hj.
  destruct (decide (a <> b)) as [Hab|Hab].
  - exists beta_a. split; [reflexivity|]. split; [assumption|]. split.
    + intros k' j' Hk' Hc. destruct (decide (k' = k)) as [->|].
      * destruct Hc as (idx' & Hidx' & Hai'). congruence.
      * apply Hset; [lia|assumption].
    + intros j' Hj' Hnone. apply Hzero; [assumption|].
      intros k' Hk'. apply Hnone. lia.
  - assert (a = b) as <- by (destruct (decide (a = b)); [assumption|contradiction]).
    assert (Hck : component_of st k a j) by (exists idx; split; assumption).
    destruct (vec_get_in_range (m_beta st) k) as [bk Hbk];
      [rewrite Hbeta; lia|].
    rewrite Hbk. cbn.
    rewrite vec_set_in_range by lia.
    eexists. split; [reflexivity|].
    assert (Hsetj : vec_set beta_a j bk = Some (<[Z.to_nat j := bk]> beta_a))
      by (apply vec_set_in_range; lia).
    split; [rewrite length_insert; assumption|]. split.
    + intros k' j' Hk' Hc. destruct (decide (k' = k)) as [->|Hne].
      * destruct Hc as (idx' & Hidx' & Hai').
        assert (j' = j) as -> by congruence.
        exists bk. split; [assumption|].
        eapply vec_get_set_eq; eassumption.
      * assert (j' <> j).
        { intros ->. apply Hne.
          eapply (component_of_inj st Hinv); eassumption. }
        destruct (Hset k' j') as (b' & Hb' & Hg); [lia|assumption|].
        exists b'. split; [assumption|].
        rewrite (vec_get_set_ne _ _ _ _ j' Hsetj) by assumption. assumption.
    + intros j' Hj' Hnone.
      assert (j' <> j).
      { intros ->. apply (Hnone k); [lia|assumption]. }
      rewrite (vec_get_set_ne _ _ _ _ j' Hsetj) by assumption.
      apply Hzero; [assumption|]. intros k' Hk'. apply Hnone. lia.
Qed.

Lemma beta_slice_inv_holds (a : Z) :
  exists beta_a,
    get_beta_for_basis_point uninit st a = Some beta_a /\
    slice_inv st a (get_system_size st) beta_a.
Proof.
  pose proof (inv_dims st Hinv) as HD.
  unfold get_beta_for_basis_point.
  destruct (for_loop_inv (slice_inv st a) (get_system_size st)
    (fun idx_k beta_a =>
       ind_k ← vec_get (m_basis_inds st) idx_k;
       if decide (a <> (idx_to_ai ind_k (get_num_dimensions st)).1)
       then Some beta_a
       else beta_k ← vec_get (m_beta st) idx_k;
            vec_set beta_a (idx_to_ai ind_k (get_num_dimensions st)).2 beta_k)
    (vec_zero (new_vector uninit (get_num_dimensions st))))
    as (beta_a & Hrun & Hfinal).
  - split; [apply new_vector_length; lia|]. split.
    + intros k j Hk. lia.
    + intros j Hj _. apply vec_zero_get.
      unfold new_vector. rewrite length_map, length_seq. lia.
  - intros k beta_a Hk Hs. now apply slice_step.
  - exists beta_a. split; [exact Hrun|].
    rewrite Z.max_r in Hfinal by (unfold get_system_size; lia). exact Hfinal.
Qed.

End BetaSlice.

(** C7. For every state that satisfies the estimator invariant and has one
    coefficient per component, and every point index [a],
    [get_beta_for_basis_point a] returns a vector of length [D] whose entry
    [j] is [beta[k]] whenever component [k] is (point [a], dimension [j]),
    and is zero in every dimension [j] that no component of point [a] has. *)
Theorem get_beta_for_basis_point_slice (uninit : nat -> float)
    (st : NystromD) (a : Z) :
  estimator_inv st ->
  beta_fitted st ->
  exists beta_a,
    get_beta_for_basis_point uninit st a = Some beta_a /\
    Z.of_nat (length beta_a) = get_num_dimensions st /\
    (forall k j, component_of st k a j ->
       exists b, vec_get (m_beta st) k = Some b /\ vec_get beta_a j = Some b) /\
    (forall j, 0 <= j < get_num_dimensions st ->
       (forall k, ~ component_of st k a j) ->
       vec_get beta_a j = Some 0%float).
Proof.
  intros Hinv Hbeta.
  destruct (beta_slice_inv_holds uninit st Hinv Hbeta a)
    as (beta_a & Hrun & Hlen & Hset & Hzero).
  exists beta_a. split; [exact Hrun|]. split; [exact Hlen|]. split.
  - intros k j Hc. apply Hset; [|assumption].
    destruct Hc as (idx & Hidx & _).
    apply vec_get_Some_range in Hidx. unfold get_system_size. lia.
  - intros j Hj Hnone. apply Hzero; [assumption|]. intros k _. apply Hnone.
Qed.

Lemma st_2x2_inv : estimator_inv Fixtures.st_2x2.
Proof.
  constructor; cbn.
  - lia.
  - repeat constructor; lia.
  - repeat constructor; lia.
Qed.

Lemma get_beta_for_basis_point_slice_witness :
  exists beta_a,
    get_beta_for_basis_point Fixtures.stale Fixtures.st_2x2 1 = Some beta_a /\
    Z.of_nat (length beta_a) = get_num_dimensions Fixtures.st_2x2 /\
    (forall k j, component_of Fixtures.st_2x2 k 1 j ->
       exists b, vec_get (m_beta Fixtures.st_2x2) k = Some b /\
                 vec_get beta_a j = Some b) /\
    (forall j, 0 <= j < get_num_dimensions Fixtures.st_2x2 ->
       (forall k, ~ component_of Fixtures.st_2x2 k 1 j) ->
       vec_get beta_a j = Some 0%float).
Proof.
  apply (get_beta_for_basis_point_slice Fixtures.stale Fixtures.st_2x2 1
           st_2x2_inv st_2x2_beta_fitted).
Defined.

Example get_beta_for_basis_point_2x2 :
  get_beta_for_basis_point Fixtures.stale Fixtures.st_2x2 0
    = Some [1%float; 0%float] /\
  get_beta_for_basis_point Fixtures.stale Fixtures.st_2x2 1
    = Some [2%float; 3%float].
Proof. split; vm_compute; reflexivity. Qed.

(** ** C10: the gradient *)

Section Gradient.
Variable uninit : nat -> float.
Variable st : NystromD.
Variable idx_test : Z.
Hypothesis Hinv : estimator_inv st.
Hypothesis Hbeta : beta_fitted st.
Hypothesis Hrows : kernel_rows_ok st.

(** One pass of the inner loop of [grad], for the component [idx] of
    dimension [i]: it only writes entry [i]. *)
Lemma grad_inner (l idx : Z) (g : list float) :
  vec_get (m_basis_inds st) l = Some idx ->
  grad_inv st g ->
  exists g',
    for_loop (get_system_size st) (fun idx_k beta_grad_sum =>
      ind_k ← vec_get (m_basis_inds st) idx_k;
      if decide ((idx_to_ai idx (get_num_dimensions st)).1 <>
                 (idx_to_ai ind_k (get_num_dimensions st)).1)
      then Some beta_grad_sum
      else
        lah_j ← vec_get
          (kernel.dx_i_dx_j_component (m_kernel st)
             (idx_to_ai idx (get_num_dimensions st)).1 idx_test
             (idx_to_ai idx (get_num_dimensions st)).2)
          (idx_to_ai ind_k (get_num_dimensions st)).2;
        beta_k ← vec_get (m_beta st) idx_k;
        g_i ← vec_get beta_grad_sum (idx_to_ai idx (get_num_dimensions st)).2;
        vec_set beta_grad_sum (idx_to_ai idx (get_num_dimensions st)).2
          (g_i - lah_j * beta_k)%float) g = Some g' /\
    grad_inv st g'.
Proof.
  intros Hidx Hg.
  pose proof (component_dim_range st Hinv l idx Hidx) as Hi.
  destruct (idx_to_ai idx (get_num_dimensions st)) as [a i] eqn:Hai.
  cbn [fst snd] in *.
  assert (Hused : component_of st l a i) by (exists idx; split; assumption).
  match goal with |- exists r, for_loop ?n ?body g = _ /\ _ =>
    destruct (for_loop_inv (fun _ g => grad_inv st g) n body g)
      as (g' & Hrun & Hg') end.
  - exact Hg.
  - intros k h Hk [Hlen Hzero]. unfold get_system_size in Hk.
    destruct (vec_get_in_range (m_basis_inds st) k Hk) as [idx_k Hidx_k].
    rewrite Hidx_k. cbn.
    pose proof (component_dim_range st Hinv k idx_k Hidx_k) as Hj.
    destruct (idx_to_ai idx_k (get_num_dimensions st)) as [b j]. cbn [fst snd] in *.
    destruct (decide (a <> b)).
    + exists h. split; [reflexivity|]. split; assumption.
    + destruct (vec_get_in_range
        (kernel.dx_i_dx_j_component (m_kernel st) a idx_test i) j) as [x Hx];
        [rewrite Hrows; lia|].
      destruct (vec_get_in_range (m_beta st) k) as [bk Hbk];
        [rewrite Hbeta; lia|].
      destruct (vec_get_in_range h i) as [gi Hgi]; [lia|].
      rewrite Hx. cbn. rewrite Hbk. cbn. rewrite Hgi. cbn.
      assert (Hset : vec_set h i (gi - x * bk)%float
                     = Some (<[Z.to_nat i := (gi - x * bk)%float]> h))
        by (apply vec_set_in_range; lia).
      rewrite Hset. eexists. split; [reflexivity|].
      split; [rewrite length_insert; assumption|].
      intros i' Hi' Hunused.
      assert (i' <> i) by (intros ->; exact (Hunused l a Hused)).
      rewrite (vec_get_set_ne _ _ _ _ i' Hset) by assumption.
      now apply Hzero.
  - exists g'. split; assumption.
Qed.

Lemma grad_inv_holds :
  exists g, grad uninit st idx_test = Some g /\ grad_inv st g.
Proof.
  pose proof (inv_dims st Hinv) as HD.
  unfold grad.
  match goal with |- exists r, for_loop ?n ?body ?g0 = _ /\ _ =>
    destruct (for_loop_inv (fun _ g => grad_inv st g) n body g0)
      as (g' & Hrun & Hg') end.
  - split; [apply new_vector_length; lia|].
    intros i Hi _. apply vec_zero_get.
    unfold new_vector. rewrite length_map, length_seq. lia.
  - intros l g Hl Hg. unfold get_system_size in Hl.
    destruct (vec_get_in_range (m_basis_inds st) l Hl) as [idx Hidx].
    rewrite Hidx. cbn. now apply (grad_inner l).
  - exists g'. split; assumption.
Qed.

End Gradient.

(** C10. For every state that satisfies the estimator invariant, has one
    coefficient per component and a kernel whose Hessian rows have length
    [D], and every query index, [grad] returns a vector of length [D] whose
    entry [i] is zero for every dimension [i] that is the dimension of no
    active basis component. *)
Theorem grad_zero_on_unused_dimensions (uninit : nat -> float)
    (st : NystromD) (idx_test : Z) :
  estimator_inv st ->
  beta_fitted st ->
  kernel_rows_ok st ->
  exists g,
    grad uninit st idx_test = Some g /\
    Z.of_nat (length g) = get_num_dimensions st /\
    (forall i, 0 <= i < get_num_dimensions st ->
       (forall k a, ~ component_of st k a i) ->
       vec_get g i = Some 0%float).
Proof.
  intros Hinv Hbeta Hrows.
  destruct (grad_inv_holds uninit st idx_test Hinv Hbeta Hrows)
    as (g & Hrun & Hlen & Hzero).
  exists g. auto.
Qed.

Lemma k_int_rows_ok (st : NystromD) :
  m_kernel st = Fixtures.k_int -> get_num_dimensions st = 2 -> kernel_rows_ok st.
Proof. intros Hk HD a b i. rewrite Hk, HD. reflexivity. Qed.

Lemma st_dim0_inv : estimator_inv Fixtures.st_dim0.
Proof.
  constructor; cbn.
  - lia.
  - repeat constructor; lia.
  - repeat constructor; lia.
Qed.

Lemma grad_zero_on_unused_dimensions_witness :
  exists g,
    grad Fixtures.stale Fixtures.st_dim0 1 = Some g /\
    Z.of_nat (length g) = get_num_dimensions Fixtures.st_dim0 /\
    (forall i, 0 <= i < get_num_dimensions Fixtures.st_dim0 ->
       (forall k a, ~ component_of Fixtures.st_dim0 k a i) ->
       vec_get g i = Some 0%float).
Proof.
  apply (grad_zero_on_unused_dimensions Fixtures.stale Fixtures.st_dim0 1
           st_dim0_inv eq_refl (k_int_rows_ok Fixtures.st_dim0 eq_refl eq_refl)).
Defined.

Example grad_st_dim0 :
  (g ← grad Fixtures.stale Fixtures.st_dim0 1; vec_get g 1) = Some 0%float.
Proof. vm_compute. reflexivity. Qed.

(** ** Matrix cells *)

Lemma flat_index_inj (D i j i' j' : Z) :
  0 <= i < D -> 0 <= i' < D -> j * D + i = j' * D + i' -> i = i' /\ j = j'.
Proof.
  intros Hi Hi' Heq.
  assert (j = j') as -> by nia. split; lia.
Qed.

Lemma flat_index_range (R C i j : Z) :
  0 <= i < R -> 0 <= j < C -> 0 <= j * R + i < R * C.
Proof. intros Hi Hj. nia. Qed.

Lemma mat_set_inv {A : Type} (m : SGMatrix A) i j x m' :
  mat_set m i j x = Some m' ->
  num_rows m' = num_rows m /\ num_cols m' = num_cols m /\
  vec_set (matrix m) (j * num_rows m + i) x = Some (matrix m').
Proof.
  unfold mat_set. destruct (vec_set _ _ _) as [d|]; [|discriminate].
  intros [= <-]. auto.
Qed.

Lemma mat_set_in_range {A : Type} (m : SGMatrix A) i j x :
  0 <= j * num_rows m + i < Z.of_nat (length (matrix m)) ->
  exists m', mat_set m i j x = Some m'.
Proof.
  intros Hr. unfold mat_set. rewrite vec_set_in_range by assumption. eauto.
Qed.

Lemma mat_get_set_eq {A : Type} (m : SGMatrix A) i j x m' :
  mat_set m i j x = Some m' -> mat_get m' i j = Some x.
Proof.
  intros (Hr & _ & Hset)%mat_set_inv. unfold mat_get. rewrite Hr.
  eapply vec_get_set_eq; eassumption.
Qed.

Lemma mat_get_set_ne {A : Type} (m : SGMatrix A) i j x m' i' j' :
  mat_set m i j x = Some m' ->
  j' * num_rows m + i' <> j * num_rows m + i ->
  mat_get m' i' j' = mat_get m i' j'.
Proof.
  intros (Hr & _ & Hset)%mat_set_inv Hne. unfold mat_get. rewrite Hr.
  eapply vec_get_set_ne; eassumption.
Qed.

Lemma mat_set_length {A : Type} (m : SGMatrix A) i j x m' :
  mat_set m i j x = Some m' -> length (matrix m') = length (matrix m).
Proof.
  intros (_ & _ & Hset)%mat_set_inv. eapply vec_set_length; eassumption.
Qed.

Lemma new_matrix_zero_length (uninit : nat -> float) (r c : Z) :
  0 <= r -> 0 <= c ->
  Z.of_nat (length (matrix (mat_zero (new_matrix uninit r c)))) = r * c.
Proof.
  intros Hr Hc. unfold mat_zero, new_matrix, vec_zero. cbn.
  rewrite length_replicate, length_map, length_seq. nia.
Qed.

Lemma new_matrix_length (uninit : nat -> float) (r c : Z) :
  0 <= r -> 0 <= c ->
  Z.of_nat (length (matrix (new_matrix uninit r c))) = r * c.
Proof.
  intros Hr Hc. unfold new_matrix. cbn.
  rewrite length_map, length_seq. nia.
Qed.

Lemma mat_zero_get (uninit : nat -> float) (r c i j : Z) :
  0 <= i < r -> 0 <= j < c ->
  mat_get (mat_zero (new_matrix uninit r c)) i j = Some 0%float.
Proof.
  intros Hi Hj. unfold mat_get, mat_zero, new_matrix. cbn [matrix num_rows].
  apply vec_zero_get. rewrite length_map, length_seq.
  pose proof (flat_index_range r c i j Hi Hj). nia.
Qed.

(** ** C6: the Hessian and its diagonal *)

Section Hessian.
Variable uninit : nat -> float.
Variable st : NystromD.
Variable idx_test : Z.
Hypothesis Hinv : estimator_inv st.
Hypothesis Hbeta : beta_fitted st.

Let D := get_num_dimensions st.

(** The inner loop of [hessian] for component [l]: of the diagonal it only
    changes the cell of the component's own dimension, and adds to it the
    one term [hessian_diag] adds. *)
Lemma hessian_inner (l idx : Z) (beta_a : list float) (H0 : SGMatrix float) :
  vec_get (m_basis_inds st) l = Some idx ->
  num_rows H0 = D ->
  Z.of_nat (length (matrix H0)) = D * D ->
  exists H,
    for_loop (get_system_size st) (fun idx_k beta_sum_hessian =>
      ind_k ← vec_get (m_basis_inds st) idx_k;
      if decide ((idx_to_ai idx D).1 <> (idx_to_ai ind_k D).1)
      then Some beta_sum_hessian
      else
        h_ij ← mat_get beta_sum_hessian (idx_to_ai idx D).2 (idx_to_ai ind_k D).2;
        mat_set beta_sum_hessian (idx_to_ai idx D).2 (idx_to_ai ind_k D).2
          (h_ij + kernel.dx_i_dx_j_dx_k_dot_vec_component (m_kernel st)
                    (idx_to_ai idx D).1 idx_test beta_a
                    (idx_to_ai idx D).2 (idx_to_ai ind_k D).2)%float) H0
    = Some H /\
    hess_inner_inv st H0 l (idx_to_ai idx D).2
      (kernel.dx_i_dx_j_dx_k_dot_vec_component (m_kernel st)
         (idx_to_ai idx D).1 idx_test beta_a
         (idx_to_ai idx D).2 (idx_to_ai idx D).2)
      (get_system_size st) H.
Proof.
  intros Hidx Hrows Hlen.
  pose proof (inv_dims st Hinv) as HD. fold D in HD.
  pose proof (component_dim_range st Hinv l idx Hidx) as Hi. fold D in Hi.
  pose proof (vec_get_Some_range _ _ _ Hidx) as Hl.
  destruct (idx_to_ai idx D) as [a i] eqn:Hai. cbn [fst snd] in *.
  destruct (vec_get_in_range (matrix H0) (i * D + i)) as [m Hm];
    [rewrite Hlen; apply flat_index_range; lia|].
  match goal with |- exists r, for_loop ?n ?body H0 = _ /\ hess_inner_inv _ _ _ _ ?t _ _ =>
    destruct (for_loop_inv (hess_inner_inv st H0 l i t) n body H0)
      as (H & Hrun & HH) end.
  - split; [assumption|]. split; [assumption|]. split; [reflexivity|].
    exists m. unfold mat_get. rewrite Hrows.
    split; [assumption|]. rewrite decide_True by lia. assumption.
  - intros k H Hk (HrowsH & HlenH & Hother & m' & Hm' & Hii).
    fold D in HrowsH, HlenH, Hother.
    unfold get_system_size in Hk.
    destruct (vec_get_in_range (m_basis_inds st) k Hk) as [idx_k Hidx_k].
    rewrite Hidx_k. cbn.
    pose proof (component_dim_range st Hinv k idx_k Hidx_k) as Hj. fold D in Hj.
    destruct (idx_to_ai idx_k D) as [b j] eqn:Hbj. cbn [fst snd] in *.
    assert (Hkl : k = l -> b = a /\ j = i).
    { intros ->. rewrite Hidx in Hidx_k. injection Hidx_k as <-.
      rewrite Hai in Hbj. now injection Hbj as <- <-. }
    destruct (decide (a <> b)) as [Hab|Hab].
    + exists H. split; [reflexivity|].
      split; [assumption|]. split; [assumption|]. split; [assumption|].
      exists m'. split; [assumption|]. rewrite Hii. f_equal.
      assert (k <> l) by (intros Heq; destruct (Hkl Heq); congruence).
      destruct (decide (k <= l)), (decide (k + 1 <= l)); try reflexivity; lia.
    + assert (a = b) as <- by (destruct (decide (a = b)); [assumption|contradiction]).
      destruct (vec_get_in_range (matrix H) (j * D + i)) as [h_ij Hh];
        [rewrite HlenH; apply flat_index_range; lia|].
      unfold mat_get at 1. rewrite HrowsH, Hh. cbn.
      match goal with |- exists r, mat_set H i j ?x = _ /\ _ =>
        destruct (mat_set_in_range H i j x) as [H' HH'] end.
      { rewrite HrowsH, HlenH. apply flat_index_range; lia. }
      exists H'. split; [exact HH'|].
      pose proof (mat_set_inv _ _ _ _ _ HH') as (HrowsH' & _ & _).
      split; [rewrite HrowsH'; exact HrowsH|].
      split; [rewrite (mat_set_length _ _ _ _ _ HH'); assumption|].
      split.
      * intros i' Hi' Hne.
        rewrite (mat_get_set_ne _ _ _ _ _ i' i' HH').
        -- now apply Hother.
        -- rewrite HrowsH. intros Heq.
           apply flat_index_inj in Heq; [|lia|lia]. lia.
      * exists m'. split; [assumption|].
        destruct (decide (j = i)) as [->|Hji].
        -- assert (k = l) as ->.
           { apply (component_of_inj st Hinv k l a i).
             - exists idx_k. split; assumption.
             - exists idx. split; assumption. }
           rewrite (mat_get_set_eq _ _ _ _ _ HH').
           rewrite decide_True in Hii by lia.
           unfold mat_get in Hii. rewrite HrowsH, Hh in Hii.
           injection Hii as ->.
           rewrite decide_False by lia. reflexivity.
        -- rewrite (mat_get_set_ne _ _ _ _ _ i i HH').
           ++ rewrite Hii. f_equal.
              assert (k <> l) by (intros Heq; destruct (Hkl Heq); congruence).
              destruct (decide (k <= l)), (decide (k + 1 <= l));
                try reflexivity; lia.
           ++ rewrite HrowsH. intros Heq.
              apply flat_index_inj in Heq; [|lia|lia]. lia.
  - exists H. split; [exact Hrun|].
    rewrite Z.max_r in HH by (unfold get_system_size; lia). exact HH.
Qed.

Lemma hessian_rel_holds :
  exists H d,
    hessian uninit st idx_test = Some H /\
    hessian_diag uninit st idx_test = Some d /\
    hess_rel st H d.
Proof.
  pose proof (inv_dims st Hinv) as HD. fold D in HD.
  unfold hessian, hessian_diag. fold D.
  match goal with
  | |- exists r1 r2, for_loop ?n ?f ?s = _ /\ for_loop _ ?g ?t = _ /\ _ =>
    destruct (for_loop_rel (fun _ H d => hess_rel st H d) n f g s t)
      as (H & d & HrunH & Hrund & Hrel)
  end.
  - split; [reflexivity|].
    split; [apply new_matrix_zero_length; lia|].
    split; [apply new_vector_length; lia|].
    intros i Hi. fold D in Hi. rewrite mat_zero_get by (fold D; lia).
    symmetry. apply vec_zero_get.
    unfold new_vector. rewrite length_map, length_seq. fold D. lia.
  - intros l H d Hl (Hrows & Hlen & Hlend & Hdiag).
    fold D in Hrows, Hlen, Hlend, Hdiag.
    unfold get_system_size in Hl.
    destruct (vec_get_in_range (m_basis_inds st) l Hl) as [idx Hidx].
    rewrite Hidx. cbn.
    destruct (beta_slice_inv_holds uninit st Hinv Hbeta (idx_to_ai idx D).1)
      as (beta_a & Hslice & _).
    fold D in Hslice. rewrite Hslice. cbn.
    destruct (hessian_inner l idx beta_a H Hidx Hrows Hlen)
      as (H' & HrunH' & HrowsH' & HlenH' & Hother & m & Hm & Hii).
    fold D in HrowsH', HlenH', Hother.
    pose proof (component_dim_range st Hinv l idx Hidx) as Hi. fold D in Hi.
    rewrite decide_False in Hii by (unfold get_system_size; lia).
    rewrite Hdiag in Hm by assumption.
    assert (Hset : forall x,
      vec_set d (idx_to_ai idx D).2 x
      = Some (<[Z.to_nat (idx_to_ai idx D).2 := x]> d))
      by (intros x; apply vec_set_in_range; lia).
    exists H'. eexists. split; [exact HrunH'|].
    rewrite Hm. cbn. rewrite Hset. split; [reflexivity|].
    split; [assumption|]. split; [assumption|].
    split; [rewrite length_insert; assumption|].
    intros i' Hi'. destruct (decide (i' = (idx_to_ai idx D).2)) as [->|Hne].
    + rewrite Hii. symmetry. eapply vec_get_set_eq. apply Hset.
    + rewrite (vec_get_set_ne _ _ _ _ i' (Hset _)) by assumption.
      rewrite Hother by assumption. now apply Hdiag.
  - exists H, d. auto.
Qed.

End Hessian.

(** C6. For every state that satisfies the estimator invariant and has one
    coefficient per component, every query index and every dimension [i] in
    [[0, D)], both evaluators return and entry [i] of [hessian_diag] is the
    [(i, i)] cell of [hessian]. *)
Theorem hessian_diag_is_diagonal (uninit : nat -> float)
    (st : NystromD) (idx_test : Z) :
  estimator_inv st ->
  beta_fitted st ->
  exists H d,
    hessian uninit st idx_test = Some H /\
    hessian_diag uninit st idx_test = Some d /\
    forall i, 0 <= i < get_num_dimensions st ->
      exists x, vec_get d i = Some x /\ mat_get H i i = Some x.
Proof.
  intros Hinv Hbeta.
  destruct (hessian_rel_holds uninit st idx_test Hinv Hbeta)
    as (H & d & HH & Hd & _ & _ & Hlen & Hdiag).
  exists H, d. split; [exact HH|]. split; [exact Hd|].
  intros i Hi. destruct (vec_get_in_range d i) as [x Hx]; [lia|].
  exists x. split; [exact Hx|]. rewrite Hdiag by assumption. exact Hx.
Qed.

Lemma hessian_diag_is_diagonal_witness :
  exists H d,
    hessian Fixtures.stale Fixtures.st_2x2 1 = Some H /\
    hessian_diag Fixtures.stale Fixtures.st_2x2 1 = Some d /\
    forall i, 0 <= i < get_num_dimensions Fixtures.st_2x2 ->
      exists x, vec_get d i = Some x /\ mat_get H i i = Some x.
Proof.
  apply (hessian_diag_is_diagonal Fixtures.stale Fixtures.st_2x2 1
           st_2x2_inv st_2x2_beta_fitted).
Defined.

(** ** Filling a matrix column by column *)

Section Fill.
Variables (R C : Z) (g : Z -> Z -> float).
Variable inner : Z -> Z -> SGMatrix float -> option (SGMatrix float).
Hypothesis HR : 0 <= R.
Hypothesis HC : 0 <= C.
Hypothesis Hinner : forall l k G,
  0 <= l < C -> 0 <= k < R -> inner l k G = mat_set G k l (g k l).

Lemma fill_column (l : Z) (G0 : SGMatrix float) :
  0 <= l < C ->
  fill_inv R C g l G0 ->
  exists G, for_loop R (inner l) G0 = Some G /\ fill_inv R C g (l + 1) G.
Proof.
  intros Hl (Hrows & Hcols & Hlen & Hdone).
  destruct (for_loop_inv (fill_col_inv R C g l) R (inner l) G0)
    as (G & Hrun & HG).
  - repeat split; try assumption. intros k' Hk'. lia.
  - intros k G Hk (HrowsG & HcolsG & HlenG & HdoneG & HcolG).
    rewrite Hinner by assumption.
    destruct (mat_set_in_range G k l (g k l)) as [G' HG'].
    { rewrite HrowsG, HlenG. apply flat_index_range; lia. }
    exists G'. split; [exact HG'|].
    pose proof (mat_set_inv _ _ _ _ _ HG') as (HrowsG' & HcolsG' & _).
    split; [congruence|]. split; [congruence|].
    split; [rewrite (mat_set_length _ _ _ _ _ HG'); assumption|].
    split.
    + intros k' l' Hk' Hl'.
      rewrite (mat_get_set_ne _ _ _ _ _ k' l' HG'); [now apply HdoneG|].
      rewrite HrowsG. intros Heq. apply flat_index_inj in Heq; lia.
    + intros k' Hk'. destruct (decide (k' = k)) as [->|Hne].
      * apply (mat_get_set_eq _ _ _ _ _ HG').
      * rewrite (mat_get_set_ne _ _ _ _ _ k' l HG'); [apply HcolG; lia|].
        rewrite HrowsG. intros Heq. apply flat_index_inj in Heq; lia.
  - exists G. split; [exact Hrun|].
    rewrite Z.max_r in HG by lia.
    destruct HG as (HrowsG & HcolsG & HlenG & HdoneG & HcolG).
    repeat split; try assumption.
    intros k l' Hk Hl'. destruct (decide (l' = l)) as [->|].
    + now apply HcolG.
    + apply HdoneG; lia.
Qed.

Lemma fill_columns (outer : Z -> SGMatrix float -> option (SGMatrix float))
    (G0 : SGMatrix float) :
  (forall l G, 0 <= l < C -> outer l G = for_loop R (inner l) G) ->
  num_rows G0 = R -> num_cols G0 = C ->
  Z.of_nat (length (matrix G0)) = R * C ->
  exists G, for_loop C outer G0 = Some G /\ fill_inv R C g C G.
Proof.
  intros Houter Hrows Hcols Hlen.
  destruct (for_loop_inv (fill_inv R C g) C outer G0) as (G & Hrun & HG).
  - repeat split; try assumption. intros k l' _ Hl'. lia.
  - intros l G Hl HG. rewrite Houter by assumption. now apply fill_column.
  - exists G. split; [exact Hrun|]. now rewrite Z.max_r in HG by lia.
Qed.

End Fill.

(** Two matrices filled with the same cells are the same matrix. *)
Lemma fill_inv_unique (R C : Z) (g : Z -> Z -> float) (G1 G2 : SGMatrix float) :
  0 <= R -> 0 <= C ->
  fill_inv R C g C G1 -> fill_inv R C g C G2 -> G1 = G2.
Proof.
  intros HR HC (Hr1 & Hc1 & Hl1 & Hg1) (Hr2 & Hc2 & Hl2 & Hg2).
  destruct G1 as [r1 c1 d1], G2 as [r2 c2 d2]. cbn in *.
  subst r1 c1 r2 c2.
  f_equal. apply list_eq. intros n.
  destruct (decide (Z.of_nat n < R * C)) as [Hn|Hn].
  - assert (0 < R) by nia.
    pose proof (Z.mod_pos_bound (Z.of_nat n) R ltac:(lia)) as Hk.
    pose proof (Z.div_mod (Z.of_nat n) R ltac:(lia)) as Hdm.
    assert (Hl : 0 <= Z.of_nat n / R < C).
    { split; [apply Z.div_pos; lia|]. apply Z.div_lt_upper_bound; lia. }
    specialize (Hg1 _ _ Hk Hl). specialize (Hg2 _ _ Hk Hl).
    unfold mat_get in Hg1, Hg2. cbn in Hg1, Hg2.
    replace (Z.of_nat n / R * R + Z.of_nat n `mod` R) with (Z.of_nat n)
      in Hg1, Hg2 by lia.
    rewrite vec_get_lookup in Hg1 by lia. rewrite vec_get_lookup in Hg2 by lia.
    rewrite Nat2Z.id in Hg1, Hg2. congruence.
  - rewrite !lookup_ge_None_2 by lia. reflexivity.
Qed.

(** ** C2 and C5: the system matrices *)

Section SystemMatrices.
Variable uninit : nat -> float.
Variable st : NystromD.

Let D := get_num_dimensions st.
Let ss := get_system_size st.

Lemma basis_ind_get k idx :
  vec_get (m_basis_inds st) k = Some idx -> basis_ind st k = idx.
Proof. intros H. unfold basis_ind. now rewrite H. Qed.

Lemma basis_ind_in_range k :
  0 <= k < ss -> vec_get (m_basis_inds st) k = Some (basis_ind st k).
Proof.
  intros Hk. destruct (vec_get_in_range (m_basis_inds st) k Hk) as [idx Hidx].
  now rewrite (basis_ind_get k idx Hidx).
Qed.

Lemma ss_nonneg : 0 <= ss.
Proof. unfold ss, get_system_size. lia. Qed.

(** [compute_G_mn] returns the [ss x N*D] matrix whose cell [(k, l)] is the
    kernel value for component [k] and data component [l]. *)
Lemma compute_G_mn_cells :
  0 <= get_num_data st * D ->
  exists G_mn,
    compute_G_mn uninit st = Some G_mn /\
    fill_inv ss (get_num_data st * D)
      (fun k l => G_cell st (basis_ind st k) l) (get_num_data st * D) G_mn.
Proof.
  intros HND. unfold compute_G_mn. fold D ss.
  apply (fill_columns ss (get_num_data st * D) _
    (fun l k G =>
       ind_k ← vec_get (m_basis_inds st) k;
       mat_set G k l (G_cell st ind_k l))).
  - exact ss_nonneg.
  - exact HND.
  - intros l k G Hl Hk. now rewrite (basis_ind_in_range k Hk).
  - reflexivity.
  - reflexivity.
  - reflexivity.
  - apply new_matrix_length; [exact ss_nonneg|exact HND].
Qed.

(** [compute_G_mm] returns the [ss x ss] matrix whose cell [(k, l)] is the
    kernel value for components [k] and [l]. *)
Lemma compute_G_mm_cells :
  exists G_mm,
    compute_G_mm uninit st = Some G_mm /\
    fill_inv ss ss
      (fun k l => G_cell st (basis_ind st k) (basis_ind st l)) ss G_mm.
Proof.
  unfold compute_G_mm. fold D ss. change (Z.of_nat (length (m_basis_inds st))) with ss.
  apply (fill_columns ss ss _
    (fun l k G =>
       ind_k ← vec_get (m_basis_inds st) k;
       mat_set G k l (G_cell st ind_k (basis_ind st l)))).
  - exact ss_nonneg.
  - exact ss_nonneg.
  - intros l k G Hl Hk. now rewrite (basis_ind_in_range k Hk).
  - intros l G Hl. rewrite (basis_ind_in_range l Hl). reflexivity.
  - reflexivity.
  - reflexivity.
  - apply new_matrix_length; exact ss_nonneg.
Qed.

(** On a [G_mn] as [compute_G_mn] builds it, and with every basis component
    index a column of [G_mn], the column selection returns the cells of
    [compute_G_mm]. *)
Lemma subsample_cells (G_mn : SGMatrix float) :
  Forall (fun idx => 0 <= idx < get_num_data st * D) (m_basis_inds st) ->
  fill_inv ss (get_num_data st * D)
    (fun k l => G_cell st (basis_ind st k) l) (get_num_data st * D) G_mn ->
  exists G_mm,
    subsample_G_mm_from_G_mn uninit st G_mn = Some G_mm /\
    fill_inv ss ss
      (fun k l => G_cell st (basis_ind st k) (basis_ind st l)) ss G_mm.
Proof.
  intros Hrange (_ & _ & _ & Hcells).
  unfold subsample_G_mm_from_G_mn. fold ss.
  change (Z.of_nat (length (m_basis_inds st))) with ss.
  apply (fill_columns ss ss _
    (fun l k G =>
       col ← vec_get (m_basis_inds st) l;
       x ← mat_get G_mn k col;
       mat_set G k l x)).
  - exact ss_nonneg.
  - exact ss_nonneg.
  - intros l k G Hl Hk. rewrite (basis_ind_in_range l Hl). cbn.
    rewrite Hcells; [reflexivity|assumption|].
    rewrite Forall_forall in Hrange. apply Hrange.
    eapply vec_get_elem_of. apply (basis_ind_in_range l Hl).
  - reflexivity.
  - reflexivity.
  - reflexivity.
  - apply new_matrix_length; exact ss_nonneg.
Qed.

End SystemMatrices.

(** C2, as the code has it. For every state with a positive dimension, a
    non-negative number of data points, and every basis component index
    below [N_data * D] (so that it names a column of [G_mn], as it does when
    the basis is a column subsample of the data):
    [compute_G_mn] and [compute_G_mm] return, [subsample_G_mm_from_G_mn]
    applied to the former returns the latter, and for all [k], [l] in
    [[0, system_size)] the cell of [G_mn] at row [k] and column
    [m_basis_inds[l]] is the [(k, l)] cell of [compute_G_mm]. *)
Theorem subsample_G_mm_equals_compute_G_mm (uninit : nat -> float)
    (st : NystromD) :
  0 < get_num_dimensions st ->
  0 <= get_num_data st ->
  Forall (fun idx => 0 <= idx < get_num_data st * get_num_dimensions st)
    (m_basis_inds st) ->
  exists G_mn G_mm,
    compute_G_mn uninit st = Some G_mn /\
    compute_G_mm uninit st = Some G_mm /\
    subsample_G_mm_from_G_mn uninit st G_mn = Some G_mm /\
    forall k l, 0 <= k < get_system_size st -> 0 <= l < get_system_size st ->
      exists col x,
        vec_get (m_basis_inds st) l = Some col /\
        mat_get G_mn k col = Some x /\
        mat_get G_mm k l = Some x.
Proof.
  intros HD HN Hrange.
  assert (HND : 0 <= get_num_data st * get_num_dimensions st) by nia.
  destruct (compute_G_mn_cells uninit st HND) as (G_mn & Hmn & Hfill_mn).
  destruct (compute_G_mm_cells uninit st) as (G_mm & Hmm & Hfill_mm).
  destruct (subsample_cells uninit st G_mn Hrange Hfill_mn)
    as (G_sub & Hsub & Hfill_sub).
  assert (G_sub = G_mm) as ->.
  { eapply fill_inv_unique; [apply ss_nonneg|apply ss_nonneg| |];
      eassumption. }
  exists G_mn, G_mm. repeat (split; [assumption|]).
  intros k l Hk Hl.
  exists (basis_ind st l), (G_cell st (basis_ind st k) (basis_ind st l)).
  split; [now apply basis_ind_in_range|].
  destruct Hfill_mn as (_ & _ & _ & Hcells_mn).
  destruct Hfill_mm as (_ & _ & _ & Hcells_mm).
  split; [|now apply Hcells_mm].
  apply Hcells_mn; [assumption|].
  rewrite Forall_forall in Hrange. apply Hrange.
  eapply vec_get_elem_of. now apply basis_ind_in_range.
Qed.

Lemma subsample_G_mm_equals_compute_G_mm_witness :
  exists G_mn G_mm,
    compute_G_mn Fixtures.stale Fixtures.st_2x2 = Some G_mn /\
    compute_G_mm Fixtures.stale Fixtures.st_2x2 = Some G_mm /\
    subsample_G_mm_from_G_mn Fixtures.stale Fixtures.st_2x2 G_mn = Some G_mm /\
    forall k l, 0 <= k < get_system_size Fixtures.st_2x2 ->
                0 <= l < get_system_size Fixtures.st_2x2 ->
      exists col x,
        vec_get (m_basis_inds Fixtures.st_2x2) l = Some col /\
        mat_get G_mn k col = Some x /\
        mat_get G_mm k l = Some x.
Proof.
  apply (subsample_G_mm_equals_compute_G_mm Fixtures.stale Fixtures.st_2x2).
  - reflexivity.
  - cbn. lia.
  - repeat constructor; cbn; lia.
Defined.

(** C2, as stated, fails on a state whose explicit basis has more points
    than the data: with two basis points, one data point and one dimension,
    [G_mn] has a single column, [compute_G_mm] returns a 2 x 2 matrix, and
    the column selection reads column [m_basis_inds[1] = 1] of [G_mn],
    outside its buffer. *)
Lemma subsample_G_mm_beyond_data_columns :
  estimator_inv Fixtures.st_wide_basis /\
  exists G_mn,
    compute_G_mn Fixtures.stale Fixtures.st_wide_basis = Some G_mn /\
    num_cols G_mn = 1 /\
    (exists G_mm, compute_G_mm Fixtures.stale Fixtures.st_wide_basis = Some G_mm) /\
    subsample_G_mm_from_G_mn Fixtures.stale Fixtures.st_wide_basis G_mn = None.
Proof.
  split.
  - constructor; cbn; [lia|repeat constructor; lia|repeat constructor; lia].
  - eexists. split; [vm_compute; reflexivity|].
    split; [reflexivity|]. split; [eexists; vm_compute; reflexivity|].
    vm_compute. reflexivity.
Qed.

(** C5. For every state with a positive dimension whose kernel is symmetric
    ([dx_dy_component(b, a, j, i) = dx_dy_component(a, b, i, j)] for all
    arguments), [compute_G_mm] returns a [system_size x system_size] matrix
    [G] with [G(k, l) = G(l, k)] for all [k], [l] in [[0, system_size)]. *)
Theorem compute_G_mm_symmetric (uninit : nat -> float) (st : NystromD) :
  kernel_symmetric (m_kernel st) ->
  0 < get_num_dimensions st ->
  exists G,
    compute_G_mm uninit st = Some G /\
    num_rows G = get_system_size st /\
    num_cols G = get_system_size st /\
    forall k l, 0 <= k < get_system_size st -> 0 <= l < get_system_size st ->
      exists x, mat_get G k l = Some x /\ mat_get G l k = Some x.
Proof.
  intros Hsym _.
  destruct (compute_G_mm_cells uninit st)
    as (G & Hrun & Hrows & Hcols & _ & Hcells).
  exists G. repeat (split; [assumption|]).
  intros k l Hk Hl.
  exists (G_cell st (basis_ind st k) (basis_ind st l)).
  split; [now apply Hcells|].
  rewrite Hcells by assumption. f_equal. unfold G_cell. apply Hsym.
Qed.

Lemma k_int_symmetric : kernel_symmetric Fixtures.k_int.
Proof. intros a b i j. cbn. f_equal. lia. Qed.

Lemma compute_G_mm_symmetric_witness :
  exists G,
    compute_G_mm Fixtures.stale Fixtures.st_2x2 = Some G /\
    num_rows G = get_system_size Fixtures.st_2x2 /\
    num_cols G = get_system_size Fixtures.st_2x2 /\
    forall k l, 0 <= k < get_system_size Fixtures.st_2x2 ->
                0 <= l < get_system_size Fixtures.st_2x2 ->
      exists x, mat_get G k l = Some x /\ mat_get G l k = Some x.
Proof.
  apply (compute_G_mm_symmetric Fixtures.stale Fixtures.st_2x2 k_int_symmetric).
  reflexivity.
Defined.

Lemma seqZ_snoc (n : Z) : 0 <= n -> seqZ 0 (n + 1) = seqZ 0 n ++ [n].
Proof.
  intros Hn. rewrite seqZ_app by lia.
  rewrite (seqZ_cons (0 + n) 1) by lia.
  rewrite (seqZ_nil (Z.succ (0 + n))) by lia. reflexivity.
Qed.

Lemma dims_passed_other (D b l : Z) :
  0 < D -> 0 <= l -> l / D <> b -> dims_passed D b (l + 1) = dims_passed D b l.
Proof.
  intros HD Hl Hne. unfold dims_passed.
  pose proof (Z.div_mod l D ltac:(lia)) as Hdm.
  pose proof (Z.mod_pos_bound l D HD) as Hr.
  destruct (Z.lt_total (l / D) b) as [Hlt|[Heq|Hgt]]; [|contradiction|]; nia.
Qed.

Lemma dims_passed_same (D b l : Z) :
  0 < D -> 0 <= l -> l / D = b ->
  dims_passed D b l = l mod D /\ dims_passed D b (l + 1) = l mod D + 1.
Proof.
  intros HD Hl Heq. unfold dims_passed.
  pose proof (Z.div_mod l D ltac:(lia)) as Hdm.
  pose proof (Z.mod_pos_bound l D HD) as Hr.
  subst b. split; nia.
Qed.

(** ** C1: the right-hand side *)

(** [compute_h] on a state whose basis is the data with every component
    active. *)
Section FullBasis.
Variable uninit : nat -> float.
Variable st : NystromD.

Let D := get_num_dimensions st.
Let N := get_num_data st.

Hypothesis HD : 0 < D.
Hypothesis HN : 0 <= N.
Hypothesis Hbasis : get_num_basis st = N.
Hypothesis Hfull : m_basis_inds st = seqZ 0 (N * D).

Lemma full_basis_get (k : Z) :
  0 <= k < N * D -> vec_get (m_basis_inds st) k = Some k.
Proof.
  intros Hk. rewrite vec_get_lookup by lia. rewrite Hfull.
  rewrite lookup_seqZ_lt by lia. f_equal. lia.
Qed.

(** The innermost loop, for the entry [k] of (point [a], dimension [i]) and
    the sweep value [b]: it adds the terms of data point [b] when [b] is a
    basis point, and nothing otherwise. *)
Lemma h_inner (k a i b : Z) (h0 : list float) (x0 : float) :
  vec_get h0 k = Some x0 ->
  0 <= b ->
  exists h,
    for_loop (N * D) (fun idx_l h =>
      ind_l ← vec_get (m_basis_inds st) idx_l;
      if decide ((idx_to_ai ind_l D).1 <> b) then Some h
      else
        h_k ← vec_get h k;
        vec_set h k
          (h_k + kernel.dx_dy_dy_component (m_kernel st) a b i
                   (idx_to_ai ind_l D).2)%float) h0 = Some h /\
    h_cell_inv h0 k x0
      ((fun j => kernel.dx_dy_dy_component (m_kernel st) a b i j)
         <$> seqZ 0 (if decide (b < N) then D else 0)) h.
Proof.
  intros Hx0 Hb.
  pose proof (vec_get_Some_range _ _ _ Hx0) as Hk.
  match goal with |- exists r, for_loop ?n ?body h0 = _ /\ _ =>
    destruct (for_loop_inv
      (fun l h => h_cell_inv h0 k x0
         ((fun j => kernel.dx_dy_dy_component (m_kernel st) a b i j)
            <$> seqZ 0 (dims_passed D b l)) h) n body h0)
      as (h & Hrun & Hh) end.
  - split; [reflexivity|]. split; [reflexivity|].
    rewrite seqZ_nil by (unfold dims_passed; nia). exact Hx0.
  - intros l h Hl (Hlen & Hother & Hcell).
    rewrite (full_basis_get l Hl). cbn.
    rewrite idx_to_ai_div_mod by lia. cbn [fst snd].
    destruct (decide (l / D <> b)) as [Hne|Heq].
    + exists h. split; [reflexivity|].
      rewrite dims_passed_other by (assumption || lia).
      split; [assumption|]. split; assumption.
    + assert (l / D = b) as Hq by (destruct (decide (l / D = b)); [assumption|contradiction]).
      destruct (dims_passed_same D b l HD ltac:(lia) Hq) as [Hp Hp'].
      rewrite Hcell. cbn.
      assert (Hset : forall x, vec_set h k x = Some (<[Z.to_nat k := x]> h))
        by (intros x; apply vec_set_in_range; lia).
      rewrite Hset. eexists. split; [reflexivity|].
      split; [rewrite length_insert; assumption|]. split.
      * intros k' Hk'. rewrite (vec_get_set_ne _ _ _ _ k' (Hset _)) by assumption.
        now apply Hother.
      * rewrite (vec_get_set_eq _ _ _ _ (Hset _)). f_equal.
        rewrite Hp', Hp.
        pose proof (Z.mod_pos_bound l D HD).
        rewrite seqZ_snoc by lia. rewrite fmap_app, foldl_app. reflexivity.
  - exists h. split; [exact Hrun|].
    rewrite Z.max_r in Hh by nia.
    replace (dims_passed D b (N * D)) with (if decide (b < N) then D else 0) in Hh;
      [exact Hh|].
    unfold dims_passed. destruct (decide (b < N)); nia.
Qed.

(** The sweep over [b] for the entry [k]: it adds the terms of every data
    point in order. *)
Lemma h_sweep (k a i : Z) (h0 : list float) :
  vec_get h0 k = Some 0%float ->
  exists h,
    for_loop (N * D) (fun b h =>
      for_loop (N * D) (fun idx_l h =>
        ind_l ← vec_get (m_basis_inds st) idx_l;
        if decide ((idx_to_ai ind_l D).1 <> b) then Some h
        else
          h_k ← vec_get h k;
          vec_set h k
            (h_k + kernel.dx_dy_dy_component (m_kernel st) a b i
                     (idx_to_ai ind_l D).2)%float) h) h0 = Some h /\
    h_cell_inv h0 k 0%float (h_terms st a i) h.
Proof.
  intros Hx0.
  match goal with |- exists r, for_loop ?n ?body h0 = _ /\ _ =>
    destruct (for_loop_inv
      (fun b h => h_cell_inv h0 k 0%float
         (b' ← seqZ 0 (Z.min b N);
          (fun j => kernel.dx_dy_dy_component (m_kernel st) a b' i j)
            <$> seqZ 0 D) h) n body h0)
      as (h & Hrun & Hh) end.
  - split; [reflexivity|]. split; [reflexivity|].
    rewrite (seqZ_nil 0 (Z.min 0 N)) by lia. exact Hx0.
  - intros b h Hb (Hlen & Hother & Hcell).
    destruct (h_inner k a i b h _ Hcell ltac:(lia))
      as (h' & Hrun' & Hlen' & Hother' & Hcell').
    exists h'. split; [exact Hrun'|].
    split; [congruence|]. split.
    + intros k' Hk'. rewrite Hother' by assumption. now apply Hother.
    + rewrite Hcell'. f_equal. destruct (decide (b < N)) as [HbN|HbN].
      * rewrite (Z.min_l (b + 1)), (Z.min_l b) by lia.
        rewrite seqZ_snoc by lia.
        rewrite bind_app, foldl_app, bind_singleton. reflexivity.
      * rewrite (Z.min_r (b + 1)), (Z.min_r b) by lia.
        rewrite (seqZ_nil 0 0) by lia. reflexivity.
  - exists h. split; [exact Hrun|].
    rewrite Z.max_r in Hh by nia.
    rewrite Z.min_r in Hh by nia. exact Hh.
Qed.

(** On the fully active basis of the data, [compute_h] returns a vector of
    length [get_system_size] whose entry for the component of (point [a],
    dimension [i]) is [1/N_data] times the sum, over all data points [b] and
    all dimensions [j], of [dx_dy_dy_component(a, b, i, j)]. *)
Lemma compute_h_full_basis :
  exists h,
    compute_h uninit st = Some h /\
    Z.of_nat (length h) = get_system_size st /\
    forall k a i, component_of st k a i ->
      vec_get h k = Some (h_entry_spec st a i).
Proof.
  unfold compute_h. rewrite Hbasis. fold D N.
  match goal with |- exists r, (mbind _ (for_loop ?n ?body ?h0)) = _ /\ _ =>
    destruct (for_loop_inv (h_inv st) n body h0) as (h & Hrun & Hlen & Hh) end.
  - split; [apply new_vector_length; nia|].
    intros k Hk. rewrite decide_False by lia. apply vec_zero_get.
    unfold new_vector. rewrite length_map, length_seq. fold D N. lia.
  - intros k h Hk [Hlen Hh]. fold D N in Hlen, Hh, Hk.
    rewrite (full_basis_get k Hk). cbn.
    pose proof (Hh k Hk) as Hx0. rewrite decide_False in Hx0 by lia.
    destruct (h_sweep k (idx_to_ai k D).1 (idx_to_ai k D).2 h Hx0)
      as (h' & Hrun' & Hlen' & Hother' & Hcell').
    exists h'. split; [exact Hrun'|]. split; [fold D N; lia|].
    intros k' Hk'. fold D N in Hk'.
    destruct (decide (k' = k)) as [->|Hne].
    + rewrite Hcell', decide_True by lia. reflexivity.
    + rewrite Hother', Hh by assumption. f_equal.
      destruct (decide (k' < k)), (decide (k' < k + 1)); try reflexivity; lia.
  - rewrite Hrun. cbn. eexists. split; [reflexivity|].
    fold D N in Hlen, Hh.
    assert (Hss : get_system_size st = N * D).
    { unfold get_system_size. rewrite Hfull, length_seqZ. nia. }
    split; [unfold vec_scale; rewrite length_map; lia|].
    intros k a i (idx & Hidx & Hai).
    pose proof (vec_get_Some_range _ _ _ Hidx) as Hk.
    fold (get_system_size st) in Hk. rewrite Hss in Hk.
    rewrite (full_basis_get k Hk) in Hidx. injection Hidx as <-.
    fold D in Hai.
    specialize (Hh k Hk). rewrite Z.max_r, decide_True in Hh by nia.
    rewrite Hai in Hh. cbn [fst snd] in Hh.
    rewrite vec_get_lookup in Hh |- * by lia.
    unfold vec_scale. rewrite list_lookup_fmap, Hh. reflexivity.
Qed.

End FullBasis.

Lemma compute_h_st_full :
  exists h,
    compute_h Fixtures.stale Fixtures.st_full = Some h /\
    Z.of_nat (length h) = get_system_size Fixtures.st_full /\
    forall k a i, component_of Fixtures.st_full k a i ->
      vec_get h k = Some (h_entry_spec Fixtures.st_full a i).
Proof.
  apply (compute_h_full_basis Fixtures.stale Fixtures.st_full);
    [reflexivity|cbn; lia|reflexivity|reflexivity].
Qed.

(** C1 does not hold of the code.  With one basis point, two data points
    and one dimension (explicit, fully active basis), [compute_h] returns
    [0.5]: it adds [dx_dy_dy_component(0, b, 0, 0)] only for [b = 0], the
    sweep over [b] being matched against the points of the basis components,
    where the specified entry sums over both data points and is [1.5].  With
    two dimensions of which only the first is active, the vector is sized
    [N_basis * D = 4] instead of [get_system_size() = 2] and the loop reads
    [m_basis_inds[2]], outside the index vector.  (The two agree when the
    basis is the data with every component active, [compute_h_full_basis].) *)
Theorem compute_h_misses_data_points :
  (get_system_size Fixtures.st_explicit = 1 /\
   component_of Fixtures.st_explicit 0 0 0 /\
   compute_h Fixtures.stale Fixtures.st_explicit = Some [0.5%float] /\
   h_entry_spec Fixtures.st_explicit 0 0 = 1.5%float /\
   compute_h Fixtures.stale Fixtures.st_explicit
     <> Some [h_entry_spec Fixtures.st_explicit 0 0]) /\
  (get_system_size Fixtures.st_dim0 = 2 /\
   get_num_basis Fixtures.st_dim0 * get_num_dimensions Fixtures.st_dim0 = 4 /\
   compute_h Fixtures.stale Fixtures.st_dim0 = None).
Proof.
  split.
  - split; [reflexivity|].
    split; [exists 0; split; reflexivity|].
    split; [vm_compute; reflexivity|].
    split; [vm_compute; reflexivity|].
    vm_compute. intros H. discriminate H.
  - split; [reflexivity|]. split; [reflexivity|]. vm_compute. reflexivity.
Qed.

(** * Further properties of the code *)

(** ** Loops that fail *)

Lemma iter_from_fails {S : Type} (body : Z -> S -> option S) (j : Z) :
  (forall t, body j t = None) ->
  forall fuel i s, i <= j < i + Z.of_nat fuel -> iter_from fuel i body s = None.
Proof.
  intros Hfail. induction fuel as [|fuel IH]; intros i s Hj; [lia|].
  cbn [iter_from]. destruct (body i s) as [s'|] eqn:Hbody; [|reflexivity].
  destruct (decide (j = i)) as [->|Hne].
  - rewrite Hfail in Hbody. discriminate.
  - apply IH. lia.
Qed.

(** A loop with an iteration that fails from every state fails. *)
Lemma for_loop_fails {S : Type} (n : Z) (body : Z -> S -> option S) (s : S) (j : Z) :
  0 <= j < n -> (forall t, body j t = None) -> for_loop n body s = None.
Proof.
  intros Hj Hfail. unfold for_loop.
  apply (iter_from_fails body j Hfail). lia.
Qed.

Lemma vec_get_out_of_range {A : Type} (v : list A) (i : Z) :
  Z.of_nat (length v) <= i -> vec_get v i = None.
Proof.
  intros Hi. unfold vec_get. destruct (decide (0 <= i)); [|reflexivity].
  apply lookup_ge_None_2. lia.
Qed.

(** ** The right-hand side, as the code computes it *)

Section ComputeHReturns.
Variable uninit : nat -> float.
Variable st : NystromD.

Let D := get_num_dimensions st.
Let size := get_num_basis st * get_num_dimensions st.

Lemma compute_h_sized :
  size <= get_system_size st ->
  exists h, compute_h uninit st = Some h /\
            Z.of_nat (length h) = Z.max 0 size.
Proof.
  intros Hsize. unfold get_system_size in Hsize.
  unfold compute_h. fold D. fold size.
  match goal with |- exists r, (mbind _ (for_loop ?n ?body ?h0)) = _ /\ _ =>
    destruct (for_loop_inv (fun _ h => Z.of_nat (length h) = Z.max 0 size)
                n body h0) as (h & Hrun & Hlen) end.
  - unfold vec_zero, new_vector.
    rewrite length_replicate, length_map, length_seq. lia.
  - intros k h Hk Hlen.
    destruct (vec_get_in_range (m_basis_inds st) k) as [idx Hidx]; [lia|].
    rewrite Hidx. cbn.
    match goal with |- exists r, for_loop ?n ?body h = _ /\ _ =>
      apply (for_loop_inv (fun _ h => Z.of_nat (length h) = Z.max 0 size)
               n body h Hlen) end.
    intros b h1 _ Hlen1.
    match goal with |- exists r, for_loop ?n ?body h1 = _ /\ _ =>
      apply (for_loop_inv (fun _ h => Z.of_nat (length h) = Z.max 0 size)
               n body h1 Hlen1) end.
    intros l h2 Hl Hlen2.
    destruct (vec_get_in_range (m_basis_inds st) l) as [idx_l Hidx_l]; [lia|].
    rewrite Hidx_l. cbn.
    destruct (decide _); [eauto|].
    destruct (vec_get_in_range h2 k) as [x Hx]; [lia|].
    rewrite Hx. cbn. rewrite vec_set_in_range by lia.
    eexists. split; [reflexivity|]. now rewrite length_insert.
  - rewrite Hrun. cbn. eexists. split; [reflexivity|].
    unfold vec_scale. now rewrite length_map.
Qed.

Lemma compute_h_reads_past_inds :
  get_system_size st < size -> compute_h uninit st = None.
Proof.
  intros Hsize. unfold get_system_size in Hsize.
  unfold compute_h. fold D. fold size.
  rewrite (for_loop_fails size _ _ (Z.of_nat (length (m_basis_inds st))));
    [reflexivity|lia|].
  intros h. rewrite vec_get_out_of_range by lia. reflexivity.
Qed.

End ComputeHReturns.

(** X1. [compute_h] returns exactly when [N_basis * D] does not exceed the
    number of basis components: it sizes [h] and bounds both loops over the
    components with [N_basis * D], so on a smaller index vector it reads
    [m_basis_inds] past its end.  When it returns, the vector has
    [N_basis * D] entries. *)
Theorem compute_h_returns_iff (uninit : nat -> float) (st : NystromD) :
  ((exists h, compute_h uninit st = Some h) <->
   get_num_basis st * get_num_dimensions st <= get_system_size st) /\
  (forall h, compute_h uninit st = Some h ->
     Z.of_nat (length h)
     = Z.max 0 (get_num_basis st * get_num_dimensions st)).
Proof.
  split.
  - split.
    + intros [h Hh].
      destruct (decide (get_num_basis st * get_num_dimensions st
                        <= get_system_size st)) as [|Hgt]; [assumption|].
      rewrite compute_h_reads_past_inds in Hh by lia. discriminate.
    + intros Hsize. destruct (compute_h_sized uninit st Hsize) as (h & Hh & _).
      now exists h.
  - intros h Hh.
    destruct (decide (get_num_basis st * get_num_dimensions st
                      <= get_system_size st)) as [Hsize|Hgt].
    + destruct (compute_h_sized uninit st Hsize) as (h' & Hh' & Hlen).
      congruence.
    + rewrite compute_h_reads_past_inds in Hh by lia. discriminate.
Qed.

(** X2. On a state whose basis is the data ([N_basis = N_data]) with every
    component active ([m_basis_inds = 0, ..., N*D-1]) and [D > 0],
    [compute_h] returns a vector of length [get_system_size] whose entry for
    the component of (point [a], dimension [i]) is the sum, over all data
    points [b] in order and all dimensions [j] in order, of
    [dx_dy_dy_component(a, b, i, j)], times [1/N_data]. *)
Theorem compute_h_on_full_basis (uninit : nat -> float) (st : NystromD) :
  0 < get_num_dimensions st ->
  0 <= get_num_data st ->
  get_num_basis st = get_num_data st ->
  m_basis_inds st = seqZ 0 (get_num_data st * get_num_dimensions st) ->
  exists h,
    compute_h uninit st = Some h /\
    Z.of_nat (length h) = get_system_size st /\
    forall k a i, component_of st k a i ->
      vec_get h k = Some (h_entry_spec st a i).
Proof.
  intros HD HN Hbasis Hfull.
  exact (compute_h_full_basis uninit st HD HN Hbasis Hfull).
Qed.

Lemma compute_h_on_full_basis_witness :
  exists h,
    compute_h Fixtures.stale Fixtures.st_full = Some h /\
    Z.of_nat (length h) = get_system_size Fixtures.st_full /\
    forall k a i, component_of Fixtures.st_full k a i ->
      vec_get h k = Some (h_entry_spec Fixtures.st_full a i).
Proof.
  apply (compute_h_on_full_basis Fixtures.stale Fixtures.st_full);
    [reflexivity|cbn; lia|reflexivity|reflexivity].
Defined.

(** ** The log-density and the coefficient vector *)

(** X3. With [D > 0], [log_pdf] returns exactly when [beta] has at least
    one coefficient per basis component: it reads [m_beta[idx_l]] for every
    component, and a shorter [beta] is read past its end. *)
Theorem log_pdf_returns_iff (st : NystromD) (idx_test : Z) :
  0 < get_num_dimensions st ->
  ((exists r, log_pdf st idx_test = Some r) <->
   (length (m_basis_inds st) <= length (m_beta st))%nat).
Proof.
  intros _. split.
  - intros [r Hr].
    destruct (decide (length (m_basis_inds st) <= length (m_beta st))%nat)
      as [|Hgt]; [assumption|exfalso].
    unfold log_pdf in Hr.
    rewrite (for_loop_fails _ _ _ (Z.of_nat (length (m_beta st)))) in Hr;
      [discriminate|unfold get_system_size; lia|].
    intros acc.
    destruct (vec_get_in_range (m_basis_inds st) (Z.of_nat (length (m_beta st))))
      as [idx Hidx]; [lia|].
    rewrite Hidx. cbn. rewrite vec_get_out_of_range by lia. reflexivity.
  - intros Hle. unfold log_pdf.
    match goal with |- exists r, for_loop ?n ?body ?s0 = _ =>
      destruct (for_loop_inv (fun _ _ => True) n body s0) as (r & Hr & _) end.
    + exact I.
    + intros k acc Hk _. unfold get_system_size in Hk.
      destruct (vec_get_in_range (m_basis_inds st) k Hk) as [idx Hidx].
      destruct (vec_get_in_range (m_beta st) k) as [b Hb]; [lia|].
      rewrite Hidx. cbn. rewrite Hb. cbn. eauto.
    + now exists r.
Qed.

Lemma log_pdf_returns_iff_witness :
  (exists r, log_pdf Fixtures.st_2x2 0 = Some r) <->
  (length (m_basis_inds Fixtures.st_2x2) <= length (m_beta Fixtures.st_2x2))%nat.
Proof. apply (log_pdf_returns_iff Fixtures.st_2x2 0). reflexivity. Defined.

(** ** The system matrices, cell by cell *)

(** X4. With [D > 0] and [N_data >= 0], [compute_G_mn] returns a matrix
    with [get_system_size] rows and [N_data * D] columns whose cell [(k, l)]
    is [dx_dy_component(b, a, j, i)], where [(b, j)] is the index mapper's
    image of [m_basis_inds[k]] and [(a, i)] that of the column [l]: the basis
    component comes first. *)
Theorem compute_G_mn_entries (uninit : nat -> float) (st : NystromD) :
  0 < get_num_dimensions st ->
  0 <= get_num_data st ->
  exists G_mn,
    compute_G_mn uninit st = Some G_mn /\
    num_rows G_mn = get_system_size st /\
    num_cols G_mn = get_num_data st * get_num_dimensions st /\
    Z.of_nat (length (matrix G_mn))
      = get_system_size st * (get_num_data st * get_num_dimensions st) /\
    forall k l idx b j a i,
      vec_get (m_basis_inds st) k = Some idx ->
      idx_to_ai idx (get_num_dimensions st) = (b, j) ->
      0 <= l < get_num_data st * get_num_dimensions st ->
      idx_to_ai l (get_num_dimensions st) = (a, i) ->
      mat_get G_mn k l
        = Some (kernel.dx_dy_component (m_kernel st) b a j i).
Proof.
  intros HD HN.
  destruct (compute_G_mn_cells uninit st ltac:(nia))
    as (G & Hrun & Hrows & Hcols & Hlen & Hcells).
  exists G. do 4 (split; [assumption|]).
  intros k l idx b j a i Hidx Hbj Hl Hai.
  pose proof (vec_get_Some_range _ _ _ Hidx) as Hk.
  rewrite Hcells by (assumption || (unfold get_system_size; lia)).
  rewrite (basis_ind_get st k idx Hidx). unfold G_cell.
  now rewrite Hbj, Hai.
Qed.

Lemma compute_G_mn_entries_witness :
  exists G_mn,
    compute_G_mn Fixtures.stale Fixtures.st_2x2 = Some G_mn /\
    num_rows G_mn = get_system_size Fixtures.st_2x2 /\
    num_cols G_mn
      = get_num_data Fixtures.st_2x2 * get_num_dimensions Fixtures.st_2x2 /\
    Z.of_nat (length (matrix G_mn))
      = get_system_size Fixtures.st_2x2 *
        (get_num_data Fixtures.st_2x2 * get_num_dimensions Fixtures.st_2x2) /\
    forall k l idx b j a i,
      vec_get (m_basis_inds Fixtures.st_2x2) k = Some idx ->
      idx_to_ai idx (get_num_dimensions Fixtures.st_2x2) = (b, j) ->
      0 <= l < get_num_data Fixtures.st_2x2 * get_num_dimensions Fixtures.st_2x2 ->
      idx_to_ai l (get_num_dimensions Fixtures.st_2x2) = (a, i) ->
      mat_get G_mn k l
        = Some (kernel.dx_dy_component (m_kernel Fixtures.st_2x2) b a j i).
Proof.
  apply (compute_G_mn_entries Fixtures.stale Fixtures.st_2x2);
    [reflexivity|cbn; lia].
Defined.

(** X5. With [D > 0], [compute_G_mm] returns a square matrix of order
    [get_system_size] whose cell [(k, l)] is [dx_dy_component(b, a, j, i)],
    where [(b, j)] is the index mapper's image of [m_basis_inds[k]] and
    [(a, i)] that of [m_basis_inds[l]]. *)
Theorem compute_G_mm_entries (uninit : nat -> float) (st : NystromD) :
  0 < get_num_dimensions st ->
  exists G_mm,
    compute_G_mm uninit st = Some G_mm /\
    num_rows G_mm = get_system_size st /\
    num_cols G_mm = get_system_size st /\
    Z.of_nat (length (matrix G_mm))
      = get_system_size st * get_system_size st /\
    forall k l idx_k idx_l b j a i,
      vec_get (m_basis_inds st) k = Some idx_k ->
      idx_to_ai idx_k (get_num_dimensions st) = (b, j) ->
      vec_get (m_basis_inds st) l = Some idx_l ->
      idx_to_ai idx_l (get_num_dimensions st) = (a, i) ->
      mat_get G_mm k l
        = Some (kernel.dx_dy_component (m_kernel st) b a j i).
Proof.
  intros _.
  destruct (compute_G_mm_cells uninit st)
    as (G & Hrun & Hrows & Hcols & Hlen & Hcells).
  exists G. do 4 (split; [assumption|]).
  intros k l idx_k idx_l b j a i Hk Hbj Hl Hai.
  pose proof (vec_get_Some_range _ _ _ Hk).
  pose proof (vec_get_Some_range _ _ _ Hl).
  rewrite Hcells by (unfold get_system_size; lia).
  rewrite (basis_ind_get st k idx_k Hk), (basis_ind_get st l idx_l Hl).
  unfold G_cell. now rewrite Hbj, Hai.
Qed.

Lemma compute_G_mm_entries_witness :
  exists G_mm,
    compute_G_mm Fixtures.stale Fixtures.st_2x2 = Some G_mm /\
    num_rows G_mm = get_system_size Fixtures.st_2x2 /\
    num_cols G_mm = get_system_size Fixtures.st_2x2 /\
    Z.of_nat (length (matrix G_mm))
      = get_system_size Fixtures.st_2x2 * get_system_size Fixtures.st_2x2 /\
    forall k l idx_k idx_l b j a i,
      vec_get (m_basis_inds Fixtures.st_2x2) k = Some idx_k ->
      idx_to_ai idx_k (get_num_dimensions Fixtures.st_2x2) = (b, j) ->
      vec_get (m_basis_inds Fixtures.st_2x2) l = Some idx_l ->
      idx_to_ai idx_l (get_num_dimensions Fixtures.st_2x2) = (a, i) ->
      mat_get G_mm k l
        = Some (kernel.dx_dy_component (m_kernel Fixtures.st_2x2) b a j i).
Proof.
  apply (compute_G_mm_entries Fixtures.stale Fixtures.st_2x2). reflexivity.
Defined.

(** [subsample_G_mm_from_G_mn] on any matrix. *)
Section Subsample.
Variable uninit : nat -> float.
Variable st : NystromD.
Variable G_mn : SGMatrix float.

Let ss := get_system_size st.

Lemma subsample_selects :
  (forall k l, 0 <= k < ss -> 0 <= l < ss ->
     exists x, mat_get G_mn k (basis_ind st l) = Some x) ->
  exists G_mm,
    subsample_G_mm_from_G_mn uninit st G_mn = Some G_mm /\
    fill_inv ss ss
      (fun k l => default 0%float (mat_get G_mn k (basis_ind st l))) ss G_mm.
Proof.
  intros Hreads. unfold subsample_G_mm_from_G_mn. fold ss.
  change (Z.of_nat (length (m_basis_inds st))) with ss.
  apply (fill_columns ss ss _
    (fun l k G =>
       col ← vec_get (m_basis_inds st) l;
       x ← mat_get G_mn k col;
       mat_set G k l x)).
  - apply ss_nonneg.
  - apply ss_nonneg.
  - intros l k G Hl Hk. rewrite (basis_ind_in_range st l Hl). cbn.
    destruct (Hreads k l Hk Hl) as [x Hx]. now rewrite Hx.
  - reflexivity.
  - reflexivity.
  - reflexivity.
  - apply new_matrix_length; apply ss_nonneg.
Qed.

Lemma subsample_reads_outside (k l : Z) :
  0 <= k < ss -> 0 <= l < ss ->
  mat_get G_mn k (basis_ind st l) = None ->
  subsample_G_mm_from_G_mn uninit st G_mn = None.
Proof.
  intros Hk Hl Hnone. unfold subsample_G_mm_from_G_mn. fold ss.
  change (Z.of_nat (length (m_basis_inds st))) with ss.
  apply (for_loop_fails ss _ _ l Hl). intros G.
  apply (for_loop_fails ss _ _ k Hk). intros G'.
  rewrite (basis_ind_in_range st l Hl). cbn. now rewrite Hnone.
Qed.

End Subsample.

(** X6. For any matrix [G_mn], [subsample_G_mm_from_G_mn] returns exactly
    when every cell [G_mn(k, m_basis_inds[l])], for [k] and [l] below
    [get_system_size], lies inside the buffer of [G_mn]; it then returns a
    square matrix of order [get_system_size] whose cell [(k, l)] is
    [G_mn(k, m_basis_inds[l])]. *)
Theorem subsample_G_mm_from_G_mn_selects_columns (uninit : nat -> float)
    (st : NystromD) (G_mn : SGMatrix float) :
  ((exists G_mm, subsample_G_mm_from_G_mn uninit st G_mn = Some G_mm) <->
   (forall k l col, 0 <= k < get_system_size st ->
      vec_get (m_basis_inds st) l = Some col ->
      exists x, mat_get G_mn k col = Some x)) /\
  (forall G_mm, subsample_G_mm_from_G_mn uninit st G_mn = Some G_mm ->
     num_rows G_mm = get_system_size st /\
     num_cols G_mm = get_system_size st /\
     forall k l col, 0 <= k < get_system_size st ->
       vec_get (m_basis_inds st) l = Some col ->
       mat_get G_mm k l = mat_get G_mn k col).
Proof.
  assert (Hpos : (forall k l col, 0 <= k < get_system_size st ->
      vec_get (m_basis_inds st) l = Some col ->
      exists x, mat_get G_mn k col = Some x) ->
    exists G_mm,
      subsample_G_mm_from_G_mn uninit st G_mn = Some G_mm /\
      fill_inv (get_system_size st) (get_system_size st)
        (fun k l => default 0%float (mat_get G_mn k (basis_ind st l)))
        (get_system_size st) G_mm).
  { intros Hreads. apply subsample_selects. intros k l Hk Hl.
    apply (Hreads k l); [assumption|]. now apply basis_ind_in_range. }
  assert (Hneg : forall G_mm,
    subsample_G_mm_from_G_mn uninit st G_mn = Some G_mm ->
    forall k l col, 0 <= k < get_system_size st ->
      vec_get (m_basis_inds st) l = Some col ->
      exists x, mat_get G_mn k col = Some x).
  { intros G_mm Hrun k l col Hk Hl.
    destruct (mat_get G_mn k col) as [x|] eqn:Hget; [now exists x|exfalso].
    pose proof (vec_get_Some_range _ _ _ Hl) as Hlr.
    rewrite <- (basis_ind_get st l col Hl) in Hget.
    rewrite (subsample_reads_outside uninit st G_mn k l Hk Hlr Hget) in Hrun.
    discriminate. }
  split.
  - split.
    + intros [G_mm Hrun]. exact (Hneg G_mm Hrun).
    + intros Hreads. destruct (Hpos Hreads) as (G_mm & Hrun & _).
      now exists G_mm.
  - intros G_mm Hrun.
    destruct (Hpos (Hneg G_mm Hrun)) as (G' & Hrun' & Hrows & Hcols & _ & Hcells).
    assert (G' = G_mm) as -> by congruence.
    split; [assumption|]. split; [assumption|].
    intros k l col Hk Hl.
    pose proof (vec_get_Some_range _ _ _ Hl) as Hlr.
    rewrite Hcells by assumption.
    rewrite (basis_ind_get st l col Hl).
    destruct (Hneg G_mm Hrun k l col Hk Hl) as [x ->]. reflexivity.
Qed.

(** ** The basis selector *)

Lemma set_insert_length (x : Z) (s : list Z) :
  (length (set_insert x s) <= Datatypes.S (length s))%nat.
Proof.
  induction s as [|y s IH]; cbn; [lia|].
  destruct (decide (x < y)); [cbn; lia|].
  destruct (decide (y < x)); cbn; lia.
Qed.


Lemma get_basis_point_inds_length (st : NystromD) (basis_inds points : list Z) :
  get_basis_point_inds st basis_inds = Some points ->
  (length points <= length basis_inds)%nat.
Proof.
  unfold get_basis_point_inds.
  match goal with |- for_loop ?n ?body ?s0 = _ -> _ =>
    destruct (for_loop_inv (fun i set => Z.of_nat (length set) <= i)
                n body s0) as (points' & Hrun & Hlen) end.
  - cbn. lia.
  - intros j set Hj Hlen.
    destruct (vec_get_in_range basis_inds j Hj) as [idx Hidx].
    rewrite Hidx. cbn. eexists. split; [reflexivity|].
    pose proof (set_insert_length
      (idx_to_ai idx (get_num_dimensions st)).1 set). lia.
  - rewrite Hrun. intros [= <-]. lia.
Qed.

(** X7. With [D > 0], [get_basis_point_inds] returns the owning points of
    an index vector in ascending order without repetition: a point is in
    the result exactly when some index of the vector maps to it.  There are
    at most as many points as indices, and when every index is in
    [[0, N*D)] every point is in [[0, N)]. *)
Theorem get_basis_point_inds_owning_points (st : NystromD)
    (basis_inds : list Z) :
  0 < get_num_dimensions st ->
  exists points,
    get_basis_point_inds st basis_inds = Some points /\
    StronglySorted Z.lt points /\
    (forall p, p ∈ points <->
       exists k idx, vec_get basis_inds k = Some idx /\
                     (idx_to_ai idx (get_num_dimensions st)).1 = p) /\
    (length points <= length basis_inds)%nat /\
    (forall N,
       Forall (fun idx => 0 <= idx < N * get_num_dimensions st) basis_inds ->
       Forall (fun p => 0 <= p < N) points).
Proof.
  intros HD.
  destruct (get_basis_point_inds_spec st basis_inds)
    as (points & Hrun & Hsorted & Hmem).
  exists points. split; [exact Hrun|]. split; [exact Hsorted|].
  split; [exact Hmem|].
  split; [now apply (get_basis_point_inds_length st)|].
  intros N Hrange. rewrite Forall_forall. intros p Hp.
  apply Hmem in Hp as (k & idx & Hget & <-).
  apply idx_to_ai_point_range; [assumption|].
  rewrite Forall_forall in Hrange. apply Hrange.
  eapply vec_get_elem_of. eassumption.
Qed.

Lemma get_basis_point_inds_owning_points_witness :
  exists points,
    get_basis_point_inds Fixtures.st_2x2 [0; 2; 3] = Some points /\
    StronglySorted Z.lt points /\
    (forall p, p ∈ points <->
       exists k idx, vec_get [0; 2; 3] k = Some idx /\
                     (idx_to_ai idx (get_num_dimensions Fixtures.st_2x2)).1 = p) /\
    (length points <= length [0; 2; 3])%nat /\
    (forall N,
       Forall (fun idx => 0 <= idx < N * get_num_dimensions Fixtures.st_2x2)
         [0; 2; 3] ->
       Forall (fun p => 0 <= p < N) points).
Proof.
  apply (get_basis_point_inds_owning_points Fixtures.st_2x2 [0; 2; 3]).
  reflexivity.
Defined.

Section MaskToState.
Variable qsort : list Z -> list Z.
Hypothesis qsort_perm : forall l, qsort l ≡ₚ l.
Hypothesis qsort_sorted : forall l, Sorted Z.le (qsort l).
Variable st : NystromD.
Variable basis_mask : SGMatrix bool.
Hypothesis Hwf : mat_wf basis_mask.

(** The index vector of the mask, with the properties of the scan. *)
Lemma mask_inds :
  exists inds,
    basis_inds_from_mask qsort basis_mask = Some inds /\
    scan_inv basis_mask (num_rows basis_mask * num_cols basis_mask) inds.
Proof.
  destruct (scan_mask basis_mask Hwf) as (dyn & Hrun & Hscan).
  exists dyn. split; [|exact Hscan].
  unfold basis_inds_from_mask. rewrite Hrun. cbn.
  now rewrite (qsort_ascending qsort qsort_perm qsort_sorted dyn (proj1 Hscan)).
Qed.

(** The scan collects one index per true cell. *)
Lemma mask_inds_count (inds : list Z) :
  basis_inds_from_mask qsort basis_mask = Some inds ->
  length inds = length (filter (eq true) (matrix basis_mask)).
Proof.
  destruct Hwf as (Hr & Hc & Hlen).
  destruct (scan_mask basis_mask Hwf) as (dyn & Hrun & Hscan).
  unfold basis_inds_from_mask. rewrite Hrun. cbn.
  rewrite (qsort_ascending qsort qsort_perm qsort_sorted dyn (proj1 Hscan)).
  intros [= <-]. revert Hrun.
  match goal with |- for_loop ?n ?body ?s0 = _ -> _ =>
    destruct (for_loop_inv (fun i dyn =>
      length dyn = length (filter (eq true)
                             (take (Z.to_nat i) (matrix basis_mask))))
      n body s0) as (dyn' & Hrun' & Hcount) end.
  - reflexivity.
  - intros j d Hj Hd.
    destruct (vec_get_in_range (matrix basis_mask) j) as [m Hm]; [lia|].
    rewrite Hm. cbn. eexists. split; [reflexivity|].
    rewrite vec_get_lookup in Hm by lia.
    replace (Z.to_nat (j + 1)) with (Datatypes.S (Z.to_nat j)) by lia.
    rewrite (take_S_r _ _ _ Hm), filter_app, length_app, <- Hd.
    destruct m.
    + rewrite length_app. rewrite filter_cons_True by reflexivity. reflexivity.
    + rewrite filter_cons_False by discriminate. cbn. lia.
  - rewrite Hrun'. intros [= <-]. rewrite Hcount.
    rewrite take_ge by nia. reflexivity.
Qed.

End MaskToState.

Section InstallMask.
Variable qsort : list Z -> list Z.
Hypothesis qsort_perm : forall l, qsort l ≡ₚ l.
Hypothesis qsort_sorted : forall l, Sorted Z.le (qsort l).
Variable st : NystromD.
Variable basis_mask : SGMatrix bool.
Hypothesis Hwf : mat_wf basis_mask.

(** One run of [set_basis_inds_from_mask], with what each of its steps
    produces. *)
Lemma set_basis_inds_run :
  exists inds points all,
    basis_inds_from_mask qsort basis_mask = Some inds /\
    scan_inv basis_mask (num_rows basis_mask * num_cols basis_mask) inds /\
    (StronglySorted Z.lt points /\
     forall p, p ∈ points <->
       exists k idx, vec_get inds k = Some idx /\
                     (idx_to_ai idx (get_num_dimensions st)).1 = p) /\
    (StronglySorted Z.lt all /\
     forall p, p ∈ all <-> 0 <= p < num_cols basis_mask) /\
    set_basis_inds_from_mask qsort st basis_mask
      = Some (with_basis_inds st inds,
              map Warn_zero_components (set_difference all points) ++
              [Info_using_components (Z.of_nat (length inds))
                 (num_rows basis_mask) (num_cols basis_mask)
                 (num_rows basis_mask * num_cols basis_mask)]).
Proof.
  destruct (mask_inds qsort qsort_perm qsort_sorted basis_mask Hwf)
    as (inds & Hinds & Hscan).
  destruct (get_basis_point_inds_spec (with_basis_inds st inds) inds)
    as (points & Hpoints & Hpsorted & Hpmem).
  destruct (all_inds_spec (num_cols basis_mask))
    as (all & Hall & Hasorted & Hamem).
  exists inds, points, all.
  split; [exact Hinds|]. split; [exact Hscan|].
  split; [split; [exact Hpsorted|exact Hpmem]|].
  split; [split; [exact Hasorted|exact Hamem]|].
  unfold set_basis_inds_from_mask. rewrite Hinds. cbn.
  rewrite Hpoints. cbn. rewrite Hall. cbn. reflexivity.
Qed.

End InstallMask.

(** X8. When the mask has the shape of the basis ([D] rows, [N_basis]
    columns, [D > 0]), the state [set_basis_inds_from_mask] leaves satisfies
    the estimator invariant: its index vector is strictly increasing with
    every index in [[0, N_basis * D)].  Its system size is the number of
    true cells of the mask, hence at most [N_basis * D]. *)
Theorem set_basis_inds_from_mask_establishes_invariant
    (qsort : list Z -> list Z) (st : NystromD) (basis_mask : SGMatrix bool) :
  (forall l, qsort l ≡ₚ l) ->
  (forall l, Sorted Z.le (qsort l)) ->
  mat_wf basis_mask ->
  0 < get_num_dimensions st ->
  num_rows basis_mask = get_num_dimensions st ->
  num_cols basis_mask = get_num_basis st ->
  exists st' log,
    set_basis_inds_from_mask qsort st basis_mask = Some (st', log) /\
    estimator_inv st' /\
    get_system_size st'
      = Z.of_nat (length (filter (eq true) (matrix basis_mask))) /\
    get_system_size st' <= get_num_basis st' * get_num_dimensions st'.
Proof.
  intros Hperm Hsorted Hwf HD Hrows Hcols.
  destruct (set_basis_inds_run qsort Hperm Hsorted st basis_mask Hwf)
    as (inds & points & all & Hinds & [Hisorted Himem] & _ & _ & Hrun).
  pose proof (mask_inds_count qsort Hperm Hsorted basis_mask Hwf inds Hinds)
    as Hcount.
  destruct Hwf as (_ & _ & Hlen).
  eexists _, _. split; [exact Hrun|]. split; [|split].
  - constructor; cbn.
    + exact HD.
    + exact Hisorted.
    + rewrite Forall_forall. intros idx Hidx.
      apply Himem in Hidx as [Hidx _]. rewrite Hrows, Hcols in Hidx. lia.
  - unfold get_system_size. cbn. now rewrite Hcount.
  - unfold get_system_size. cbn. rewrite Hcount.
    pose proof (length_filter (eq true) (matrix basis_mask)).
    rewrite <- Hcols, <- Hrows. lia.
Qed.

Lemma set_basis_inds_from_mask_establishes_invariant_witness :
  exists st' log,
    set_basis_inds_from_mask Fixtures.qsort_index Fixtures.st_2x2
      Fixtures.mask_2x2 = Some (st', log) /\
    estimator_inv st' /\
    get_system_size st'
      = Z.of_nat (length (filter (eq true) (matrix Fixtures.mask_2x2))) /\
    get_system_size st' <= get_num_basis st' * get_num_dimensions st'.
Proof.
  apply (set_basis_inds_from_mask_establishes_invariant Fixtures.qsort_index
           Fixtures.st_2x2 Fixtures.mask_2x2
           qsort_index_perm qsort_index_sorted mask_2x2_wf);
    reflexivity.
Defined.



(** ** The evaluators in closed form *)

Lemma float_sum_app (l1 l2 : list float) :
  float_sum (l1 ++ l2) = foldl (fun acc t => (acc + t)%float) (float_sum l1) l2.
Proof. unfold float_sum. now rewrite foldl_app. Qed.

Section ClosedForms.
Variable uninit : nat -> float.
Variable st : NystromD.
Hypothesis Hinv : estimator_inv st.
Hypothesis Hbeta : beta_fitted st.

Let D := get_num_dimensions st.
Let ss := get_system_size st.

Lemma position_point_dim (k idx : Z) :
  vec_get (m_basis_inds st) k = Some idx ->
  point_of st k = (idx_to_ai idx D).1 /\ dim_of st k = (idx_to_ai idx D).2.
Proof.
  intros Hk. unfold point_of, dim_of.
  now rewrite (basis_ind_get st k idx Hk).
Qed.

Lemma position_index (k idx : Z) :
  vec_get (m_basis_inds st) k = Some idx ->
  idx = point_of st k * D + dim_of st k /\ 0 <= dim_of st k < D.
Proof.
  intros Hk. destruct (position_point_dim k idx Hk) as [-> ->].
  pose proof (inv_dims st Hinv). split.
  - apply idx_to_ai_decode; [unfold D; lia|].
    now destruct (idx_to_ai idx D).
  - now apply (component_dim_range st Hinv k).
Qed.

Lemma flat_index_component (k a j : Z) :
  0 <= j < D ->
  vec_get (m_basis_inds st) k = Some (a * D + j) ->
  component_of st k a j.
Proof.
  intros Hj Hk. exists (a * D + j). split; [exact Hk|].
  pose proof (inv_dims st Hinv).
  pose proof (component_index_nonneg st Hinv k _ Hk).
  fold D. apply idx_to_ai_encode; [assumption| |assumption].
  fold D in H0. nia.
Qed.

(** [get_beta_for_basis_point] returns the zero-padded slice. *)
Lemma beta_slice_correct (a : Z) :
  get_beta_for_basis_point uninit st a = Some (beta_slice st a).
Proof.
  pose proof (inv_dims st Hinv) as HD. fold D in HD.
  destruct (beta_slice_inv_holds uninit st Hinv Hbeta a)
    as (beta_a & Hrun & Hlen & Hset & Hzero).
  rewrite Hrun. f_equal. apply list_eq. intros n.
  unfold beta_slice. rewrite list_lookup_fmap. fold D.
  destruct (decide (Z.of_nat n < D)) as [Hn|Hn].
  - rewrite lookup_seqZ_lt by lia. cbn.
    replace (0 + Z.of_nat n) with (Z.of_nat n) by lia.
    assert (Hget : vec_get beta_a (Z.of_nat n) = beta_a !! n).
    { rewrite vec_get_lookup by lia. now rewrite Nat2Z.id. }
    rewrite <- Hget. unfold beta_at. fold D.
    destruct (list_find _ (m_basis_inds st)) as [[k idx]|] eqn:Hfind.
    + apply list_find_Some in Hfind as (Hk & -> & _).
      assert (Hvk : vec_get (m_basis_inds st) (Z.of_nat k)
                    = Some (a * D + Z.of_nat n)).
      { rewrite vec_get_lookup by lia. now rewrite Nat2Z.id. }
      destruct (Hset (Z.of_nat k) (Z.of_nat n)) as (b & Hb & Hgb).
      * apply vec_get_Some_range in Hvk. unfold get_system_size. lia.
      * apply flat_index_component; [lia|assumption].
      * rewrite Hgb. f_equal.
        rewrite vec_get_lookup in Hb by lia. rewrite Nat2Z.id in Hb.
        now rewrite Hb.
    + apply list_find_None in Hfind. rewrite Forall_forall in Hfind.
      apply Hzero; [fold D; lia|].
      intros k _ (idx & Hidx & Hai).
      apply (Hfind idx); [eapply vec_get_elem_of; eassumption|].
      apply idx_to_ai_decode; [fold D; lia|exact Hai].
  - rewrite lookup_seqZ_ge by lia. cbn.
    apply lookup_ge_None_2. lia.
Qed.

Lemma hessian_diag_terms_snoc (query i n : Z) :
  0 <= n ->
  hessian_diag_terms st query i (n + 1)
  = hessian_diag_terms st query i n ++
    (if decide (dim_of st n = i)
     then [kernel.dx_i_dx_j_dx_k_dot_vec_component (m_kernel st)
             (point_of st n) query (beta_slice st (point_of st n)) i i]
     else []).
Proof.
  intros Hn. unfold hessian_diag_terms.
  rewrite seqZ_snoc by assumption. rewrite bind_app. f_equal.
  rewrite bind_singleton. reflexivity.
Qed.

Lemma hessian_diag_value (query : Z) :
  exists d,
    hessian_diag uninit st query = Some d /\
    hessian_diag_inv st query ss d.
Proof.
  pose proof (inv_dims st Hinv) as HD. fold D in HD.
  unfold hessian_diag. fold D. fold ss.
  match goal with |- exists r, for_loop ?n ?body ?s0 = _ /\ _ =>
    destruct (for_loop_inv (hessian_diag_inv st query) n body s0)
      as (d & Hrun & Hd) end.
  - split; [apply new_vector_length; lia|].
    intros i Hi. apply vec_zero_get.
    unfold new_vector. rewrite length_map, length_seq. fold D in Hi. lia.
  - intros l d Hl [Hlen Hd]. fold D in Hlen, Hd.
    unfold ss, get_system_size in Hl.
    destruct (vec_get_in_range (m_basis_inds st) l Hl) as [idx Hidx].
    rewrite Hidx. cbn.
    destruct (position_point_dim l idx Hidx) as [Hp Hdim].
    destruct (position_index l idx Hidx) as [_ Hrange].
    rewrite <- Hp, <- Hdim. rewrite beta_slice_correct. cbn.
    rewrite (Hd _ Hrange). cbn.
    rewrite vec_set_in_range by lia.
    eexists. split; [reflexivity|].
    split; [rewrite length_insert; exact Hlen|].
    intros i Hi. fold D in Hi.
    rewrite hessian_diag_terms_snoc by lia.
    assert (Hset : forall x, vec_set d (dim_of st l) x
                             = Some (<[Z.to_nat (dim_of st l) := x]> d))
      by (intros x; apply vec_set_in_range; lia).
    destruct (decide (dim_of st l = i)) as [<-|Hne].
    + rewrite (vec_get_set_eq _ _ _ _ (Hset _)).
      now rewrite float_sum_snoc.
    + rewrite (vec_get_set_ne _ _ _ _ i (Hset _)) by congruence.
      rewrite app_nil_r. now apply Hd.
  - exists d. split; [exact Hrun|].
    now rewrite Z.max_r in Hd by (unfold ss, get_system_size; lia).
Qed.

End ClosedForms.

(** X10. Under the estimator invariant and with one coefficient per
    component, [hessian_diag] returns a vector of length [D] whose entry
    [i] is the sum, over the components of dimension [i] in the order of
    [m_basis_inds], of
    [dx_i_dx_j_dx_k_dot_vec_component(a, query, beta_a, i, i)], where [a] is
    the component's point and [beta_a] its zero-padded beta slice (entry [j]
    is the coefficient of the component with flat index [a*D + j], or zero
    when there is none). *)
Theorem hessian_diag_closed_form (uninit : nat -> float) (st : NystromD)
    (query : Z) :
  estimator_inv st ->
  beta_fitted st ->
  exists d,
    hessian_diag uninit st query = Some d /\
    Z.of_nat (length d) = get_num_dimensions st /\
    forall i, 0 <= i < get_num_dimensions st ->
      vec_get d i
      = Some (float_sum (hessian_diag_terms st query i (get_system_size st))).
Proof.
  intros Hinv Hbeta.
  destruct (hessian_diag_value uninit st Hinv Hbeta query)
    as (d & Hrun & Hlen & Hd).
  exists d. auto.
Qed.

Lemma hessian_diag_closed_form_witness :
  exists d,
    hessian_diag Fixtures.stale Fixtures.st_2x2 1 = Some d /\
    Z.of_nat (length d) = get_num_dimensions Fixtures.st_2x2 /\
    forall i, 0 <= i < get_num_dimensions Fixtures.st_2x2 ->
      vec_get d i
      = Some (float_sum (hessian_diag_terms Fixtures.st_2x2 1 i
                           (get_system_size Fixtures.st_2x2))).
Proof.
  apply (hessian_diag_closed_form Fixtures.stale Fixtures.st_2x2 1
           st_2x2_inv st_2x2_beta_fitted).
Defined.

Lemma float_diff_app (x0 : float) (l1 l2 : list float) :
  float_diff x0 (l1 ++ l2) = float_diff (float_diff x0 l1) l2.
Proof. unfold float_diff. now rewrite foldl_app. Qed.

Section GradValue.
Variable uninit : nat -> float.
Variable st : NystromD.
Variable query : Z.
Hypothesis Hinv : estimator_inv st.
Hypothesis Hbeta : beta_fitted st.
Hypothesis Hrows : kernel_rows_ok st.

Let D := get_num_dimensions st.
Let ss := get_system_size st.

Lemma grad_inner_terms_snoc (l n : Z) :
  0 <= n ->
  grad_inner_terms st query l (n + 1)
  = grad_inner_terms st query l n ++
    (if decide (point_of st l = point_of st n)
     then [(default 0%float
              (vec_get (kernel.dx_i_dx_j_component (m_kernel st)
                          (point_of st l) query (dim_of st l)) (dim_of st n))
            * default 0%float (vec_get (m_beta st) n))%float]
     else []).
Proof.
  intros Hn. unfold grad_inner_terms.
  rewrite seqZ_snoc by assumption. rewrite bind_app. f_equal.
  rewrite bind_singleton. reflexivity.
Qed.

Lemma grad_terms_snoc (i n : Z) :
  0 <= n ->
  grad_terms st query i (n + 1)
  = grad_terms st query i n ++
    (if decide (dim_of st n = i)
     then grad_inner_terms st query n (get_system_size st) else []).
Proof.
  intros Hn. unfold grad_terms.
  rewrite seqZ_snoc by assumption. rewrite bind_app. f_equal.
  rewrite bind_singleton. reflexivity.
Qed.

(** The inner loop of [grad] for the component at position [l]: it
    subtracts from the entry of the component's dimension one product per
    component of the same point, and leaves the other entries alone. *)
Lemma grad_inner_value (l : Z) (g0 : list float) (x0 : float) :
  0 <= l < ss ->
  vec_get g0 (dim_of st l) = Some x0 ->
  exists g,
    for_loop ss (fun idx_k beta_grad_sum =>
      ind_k ← vec_get (m_basis_inds st) idx_k;
      if decide (point_of st l <> (idx_to_ai ind_k D).1)
      then Some beta_grad_sum
      else
        lah_j ← vec_get
          (kernel.dx_i_dx_j_component (m_kernel st)
             (point_of st l) query (dim_of st l))
          (idx_to_ai ind_k D).2;
        beta_k ← vec_get (m_beta st) idx_k;
        g_i ← vec_get beta_grad_sum (dim_of st l);
        vec_set beta_grad_sum (dim_of st l) (g_i - lah_j * beta_k)%float) g0
    = Some g /\
    length g = length g0 /\
    (forall i, i <> dim_of st l -> vec_get g i = vec_get g0 i) /\
    vec_get g (dim_of st l)
    = Some (float_diff x0 (grad_inner_terms st query l ss)).
Proof.
  intros Hl Hx0.
  pose proof (vec_get_Some_range _ _ _ Hx0) as Hi.
  match goal with |- exists r, for_loop ?n ?body g0 = _ /\ _ =>
    destruct (for_loop_inv (fun m g =>
      length g = length g0 /\
      (forall i, i <> dim_of st l -> vec_get g i = vec_get g0 i) /\
      vec_get g (dim_of st l)
      = Some (float_diff x0 (grad_inner_terms st query l m))) n body g0)
      as (g & Hrun & Hg) end.
  - split; [reflexivity|]. split; [reflexivity|]. exact Hx0.
  - intros m g Hm (Hlen & Hother & Hcell).
    unfold ss, get_system_size in Hm.
    destruct (vec_get_in_range (m_basis_inds st) m Hm) as [idx Hidx].
    rewrite Hidx. cbn.
    destruct (position_point_dim st m idx Hidx) as [Hp Hdim]. fold D in Hp, Hdim.
    destruct (position_index st Hinv m idx Hidx) as [_ Hrange]. fold D in Hrange.
    rewrite <- Hp, <- Hdim.
    rewrite grad_inner_terms_snoc by lia.
    destruct (decide (point_of st l <> point_of st m)) as [Hne|Heq].
    + exists g. split; [reflexivity|].
      rewrite decide_False by assumption. rewrite app_nil_r. auto.
    + assert (point_of st l = point_of st m) as Hpm
        by (destruct (decide (point_of st l = point_of st m)); [assumption|contradiction]).
      rewrite decide_True by assumption.
      destruct (vec_get_in_range
        (kernel.dx_i_dx_j_component (m_kernel st)
           (point_of st l) query (dim_of st l)) (dim_of st m)) as [x Hx];
        [rewrite Hrows; exact Hrange|].
      destruct (vec_get_in_range (m_beta st) m) as [bk Hbk];
        [rewrite Hbeta; lia|].
      rewrite Hx. cbn. rewrite Hbk. cbn. rewrite Hcell. cbn.
      assert (Hset : forall y, vec_set g (dim_of st l) y
                               = Some (<[Z.to_nat (dim_of st l) := y]> g))
        by (intros y; apply vec_set_in_range; lia).
      rewrite Hset. eexists. split; [reflexivity|].
      split; [rewrite length_insert; exact Hlen|]. split.
      * intros i Hne. rewrite (vec_get_set_ne _ _ _ _ i (Hset _)) by assumption.
        now apply Hother.
      * rewrite (vec_get_set_eq _ _ _ _ (Hset _)). f_equal.
        rewrite float_diff_app. reflexivity.
  - exists g. split; [exact Hrun|].
    now rewrite Z.max_r in Hg by (unfold ss, get_system_size; lia).
Qed.

Lemma grad_value :
  exists g, grad uninit st query = Some g /\ grad_value_inv st query ss g.
Proof.
  pose proof (inv_dims st Hinv) as HD. fold D in HD.
  unfold grad. fold D. fold ss.
  match goal with |- exists r, for_loop ?n ?body ?s0 = _ /\ _ =>
    destruct (for_loop_inv (grad_value_inv st query) n body s0)
      as (g & Hrun & Hg) end.
  - split; [apply new_vector_length; lia|].
    intros i Hi. apply vec_zero_get.
    unfold new_vector. rewrite length_map, length_seq. fold D in Hi. lia.
  - intros l g Hl [Hlen Hg]. fold D in Hlen, Hg.
    pose proof Hl as Hl'. unfold ss, get_system_size in Hl'.
    destruct (vec_get_in_range (m_basis_inds st) l Hl') as [idx Hidx].
    rewrite Hidx. cbn.
    destruct (position_point_dim st l idx Hidx) as [Hp Hdim]. fold D in Hp, Hdim.
    destruct (position_index st Hinv l idx Hidx) as [_ Hrange]. fold D in Hrange.
    rewrite <- Hp, <- Hdim.
    destruct (grad_inner_value l g _ Hl (Hg _ Hrange))
      as (g' & Hrun' & Hlen' & Hother' & Hcell').
    exists g'. split; [exact Hrun'|]. split; [lia|].
    intros i Hi. rewrite grad_terms_snoc by lia.
    destruct (decide (dim_of st l = i)) as [<-|Hne].
    + rewrite Hcell'. now rewrite float_diff_app.
    + rewrite Hother' by congruence. rewrite app_nil_r. now apply Hg.
  - exists g. split; [exact Hrun|].
    now rewrite Z.max_r in Hg by (unfold ss, get_system_size; lia).
Qed.

End GradValue.

(** X11. Under the estimator invariant, with one coefficient per component
    and kernel Hessian rows of length [D], [grad] returns a vector of length
    [D] whose entry [i] is zero minus, in loop order, the products
    [row[dim(k)] * beta[k]]: for every component [l] of dimension [i], with
    [row = dx_i_dx_j_component(point(l), query, i)], one product for every
    component [k] of the same point. *)
Theorem grad_closed_form (uninit : nat -> float) (st : NystromD) (query : Z) :
  estimator_inv st ->
  beta_fitted st ->
  kernel_rows_ok st ->
  exists g,
    grad uninit st query = Some g /\
    Z.of_nat (length g) = get_num_dimensions st /\
    forall i, 0 <= i < get_num_dimensions st ->
      vec_get g i
      = Some (float_diff 0%float
                (grad_terms st query i (get_system_size st))).
Proof.
  intros Hinv Hbeta Hrows.
  destruct (grad_value uninit st query Hinv Hbeta Hrows)
    as (g & Hrun & Hlen & Hg).
  exists g. auto.
Qed.

Lemma grad_closed_form_witness :
  exists g,
    grad Fixtures.stale Fixtures.st_2x2 1 = Some g /\
    Z.of_nat (length g) = get_num_dimensions Fixtures.st_2x2 /\
    forall i, 0 <= i < get_num_dimensions Fixtures.st_2x2 ->
      vec_get g i
      = Some (float_diff 0%float
                (grad_terms Fixtures.st_2x2 1 i
                   (get_system_size Fixtures.st_2x2))).
Proof.
  apply (grad_closed_form Fixtures.stale Fixtures.st_2x2 1
           st_2x2_inv st_2x2_beta_fitted
           (k_int_rows_ok Fixtures.st_2x2 eq_refl eq_refl)).
Defined.

Lemma StronglySorted_lt_lookup (l : list Z) (m n : nat) (x y : Z) :
  StronglySorted Z.lt l -> l !! m = Some x -> l !! n = Some y ->
  (m < n)%nat -> x < y.
Proof.
  intros Hs. revert m n. induction Hs as [|z l Hl IH Hz]; intros m n Hm Hn Hlt.
  - now rewrite lookup_nil in Hm.
  - destruct n as [|n]; [lia|]. cbn in Hn. destruct m as [|m].
    + cbn in Hm. injection Hm as ->. rewrite Forall_forall in Hz.
      apply Hz. eapply list_elem_of_lookup_2. eassumption.
    + cbn in Hm. apply (IH m n); [assumption|assumption|lia].
Qed.

(** Ascending sequences with the same members are equal. *)
Lemma StronglySorted_lt_ext (l1 l2 : list Z) :
  StronglySorted Z.lt l1 -> StronglySorted Z.lt l2 ->
  (forall x, x ∈ l1 <-> x ∈ l2) -> l1 = l2.
Proof.
  intros H1 H2 Hmem. apply (Sorted_unique Z.le).
  - apply StronglySorted_Sorted, StronglySorted_lt_le, H1.
  - apply StronglySorted_Sorted, StronglySorted_lt_le, H2.
  - apply NoDup_Permutation; [|  |exact Hmem];
      now apply StronglySorted_lt_NoDup.
Qed.

Section HessianValue.
Variable uninit : nat -> float.
Variable st : NystromD.
Variable query : Z.
Hypothesis Hinv : estimator_inv st.
Hypothesis Hbeta : beta_fitted st.

Let D := get_num_dimensions st.
Let ss := get_system_size st.

Lemma pair_points_snoc (i j n : Z) :
  0 <= n ->
  pair_points st i j (n + 1)
  = pair_points st i j n ++
    (if decide (dim_of st n = i /\ point_of st n * D + j ∈ m_basis_inds st)
     then [point_of st n] else []).
Proof.
  intros Hn. unfold pair_points.
  rewrite seqZ_snoc by assumption.
  rewrite filter_app, fmap_app. f_equal.
  rewrite filter_singleton; [|exact []]. fold D.
  destruct (decide _); reflexivity.
Qed.

Lemma hessian_terms_snoc (i j n : Z) :
  0 <= n ->
  hessian_terms st query i j (n + 1)
  = hessian_terms st query i j n ++
    (if decide (dim_of st n = i /\ point_of st n * D + j ∈ m_basis_inds st)
     then [kernel.dx_i_dx_j_dx_k_dot_vec_component (m_kernel st)
             (point_of st n) query (beta_slice st (point_of st n)) i j]
     else []).
Proof.
  intros Hn. unfold hessian_terms.
  rewrite pair_points_snoc by assumption. rewrite fmap_app. f_equal.
  destruct (decide _); reflexivity.
Qed.

Lemma position_of_index (idx : Z) :
  idx ∈ m_basis_inds st <->
  exists k, 0 <= k < ss /\ vec_get (m_basis_inds st) k = Some idx.
Proof.
  split.
  - intros [n Hn]%list_elem_of_lookup. exists (Z.of_nat n).
    assert (Hget : vec_get (m_basis_inds st) (Z.of_nat n) = Some idx).
    { rewrite vec_get_lookup by lia. now rewrite Nat2Z.id. }
    split; [|exact Hget].
    apply vec_get_Some_range in Hget. exact Hget.
  - intros (k & _ & Hget). eapply vec_get_elem_of. eassumption.
Qed.

(** The inner loop of [hessian] for a component of point [a] and dimension
    [i]. *)
Lemma hessian_row (a i : Z) (H0 : SGMatrix float) :
  0 <= i < D ->
  num_rows H0 = D ->
  Z.of_nat (length (matrix H0)) = D * D ->
  exists H,
    for_loop ss (fun idx_k beta_sum_hessian =>
      ind_k ← vec_get (m_basis_inds st) idx_k;
      if decide (a <> (idx_to_ai ind_k D).1)
      then Some beta_sum_hessian
      else
        h_ij ← mat_get beta_sum_hessian i (idx_to_ai ind_k D).2;
        mat_set beta_sum_hessian i (idx_to_ai ind_k D).2
          (h_ij + kernel.dx_i_dx_j_dx_k_dot_vec_component (m_kernel st)
                    a query (beta_slice st a) i (idx_to_ai ind_k D).2)%float) H0
    = Some H /\
    hessian_row_inv st query H0 a i ss H.
Proof.
  intros Hi Hrows Hlen.
  pose proof (inv_dims st Hinv) as HD. fold D in HD.
  match goal with |- exists r, for_loop ?n ?body H0 = _ /\ _ =>
    destruct (for_loop_inv (hessian_row_inv st query H0 a i) n body H0)
      as (H & Hrun & HH) end.
  - split; [assumption|]. split; [reflexivity|]. split; [assumption|].
    intros i' j _ _. split; [reflexivity|]. split; [reflexivity|].
    intros (k & Hk & _). lia.
  - intros m H Hm (HrowsH & HcolsH & HlenH & Hcells).
    fold D in HrowsH, HlenH, Hcells.
    pose proof Hm as Hm'. unfold ss, get_system_size in Hm'.
    destruct (vec_get_in_range (m_basis_inds st) m Hm') as [idx Hidx].
    rewrite Hidx. cbn.
    destruct (position_point_dim st m idx Hidx) as [Hp Hdim]. fold D in Hp, Hdim.
    destruct (position_index st Hinv m idx Hidx) as [Hflat Hjm].
    fold D in Hflat, Hjm.
    rewrite <- Hp, <- Hdim.
    destruct (decide (a <> point_of st m)) as [Hab|Hab].
    + exists H. split; [reflexivity|].
      split; [assumption|]. split; [assumption|]. split; [assumption|].
      intros i' j Hi' Hj. fold D in Hi', Hj.
      destruct (Hcells i' j Hi' Hj) as (Hother & Hnone & Hsome).
      split; [assumption|]. split.
      * intros Hno. apply Hnone. intros k Hk. apply Hno. lia.
      * intros (k & Hk & Hget). apply Hsome. exists k. split; [|exact Hget].
        assert (k <> m); [|lia]. intros ->.
        rewrite Hidx in Hget. injection Hget as Heq.
        rewrite Hflat in Heq. apply flat_index_inj in Heq; [|lia|lia].
        apply Hab. symmetry. tauto.
    + assert (a = point_of st m) as Ha
        by (destruct (decide (a = point_of st m)); [assumption|contradiction]).
      set (jm := dim_of st m) in *.
      destruct (vec_get_in_range (matrix H) (jm * D + i)) as [h Hh];
        [rewrite HlenH; apply flat_index_range; lia|].
      unfold mat_get at 1. rewrite HrowsH, Hh. cbn.
      match goal with |- exists r, mat_set H i jm ?x = _ /\ _ =>
        destruct (mat_set_in_range H i jm x) as [H' HH'] end.
      { rewrite HrowsH, HlenH. apply flat_index_range; lia. }
      exists H'. split; [exact HH'|].
      pose proof (mat_set_inv _ _ _ _ _ HH') as (HrowsH' & HcolsH' & _).
      split; [rewrite HrowsH'; exact HrowsH|].
      split; [congruence|].
      split; [rewrite (mat_set_length _ _ _ _ _ HH'); exact HlenH|].
      assert (Hidx' : vec_get (m_basis_inds st) m = Some (a * D + jm)).
      { rewrite Hidx, Hflat, <- Ha. reflexivity. }
      intros i' j Hi' Hj. fold D in Hi', Hj.
      destruct (Hcells i' j Hi' Hj) as (Hother & Hnone & Hsome).
      destruct (Hcells i jm Hi Hjm) as (_ & Hnone_m & _).
      split; [|split].
      * intros Hne. rewrite (mat_get_set_ne _ _ _ _ _ i' j HH').
        -- now apply Hother.
        -- rewrite HrowsH. intros Heq.
           apply flat_index_inj in Heq; [|lia|lia]. lia.
      * intros Hno.
        assert (j <> jm).
        { intros ->. apply (Hno m); [lia|exact Hidx']. }
        rewrite (mat_get_set_ne _ _ _ _ _ i j HH').
        -- apply Hnone. intros k Hk. apply Hno. lia.
        -- rewrite HrowsH. intros Heq.
           apply flat_index_inj in Heq; [|lia|lia]. lia.
      * intros (k & Hk & Hget).
        destruct (decide (j = jm)) as [->|Hne].
        -- assert (Hold : mat_get H i jm = mat_get H0 i jm).
           { apply Hnone_m. intros k' Hk' Hget'.
             pose proof (component_lookup_inj st Hinv k' m _ Hget' Hidx'). lia. }
           unfold mat_get at 1 in Hold. rewrite HrowsH, Hh in Hold.
           exists h. split; [now symmetry|].
           apply (mat_get_set_eq _ _ _ _ _ HH').
        -- assert (k <> m).
           { intros ->. rewrite Hidx' in Hget. injection Hget as Heq.
             apply flat_index_inj in Heq; [|lia|lia]. lia. }
           destruct Hsome as (x & Hx & Hcell); [exists k; split; [lia|exact Hget]|].
           exists x. split; [exact Hx|].
           rewrite (mat_get_set_ne _ _ _ _ _ i j HH'); [exact Hcell|].
           rewrite HrowsH. intros Heq.
           apply flat_index_inj in Heq; [|lia|lia]. lia.
  - exists H. split; [exact Hrun|].
    now rewrite Z.max_r in HH by (unfold ss, get_system_size; lia).
Qed.

Lemma hessian_value :
  exists H,
    hessian uninit st query = Some H /\ hessian_value_inv st query ss H.
Proof.
  pose proof (inv_dims st Hinv) as HD. fold D in HD.
  unfold hessian. fold D. fold ss.
  match goal with |- exists r, for_loop ?n ?body ?s0 = _ /\ _ =>
    destruct (for_loop_inv (hessian_value_inv st query) n body s0)
      as (H & Hrun & HH) end.
  - split; [reflexivity|]. split; [reflexivity|].
    split; [apply new_matrix_zero_length; lia|].
    intros i j Hi Hj. fold D in Hi, Hj. apply mat_zero_get; assumption.
  - intros l H Hl (Hrows & Hcols & Hlen & Hcells).
    fold D in Hrows, Hcols, Hlen, Hcells.
    pose proof Hl as Hl'. unfold ss, get_system_size in Hl'.
    destruct (vec_get_in_range (m_basis_inds st) l Hl') as [idx Hidx].
    rewrite Hidx. cbn.
    destruct (position_point_dim st l idx Hidx) as [Hp Hdim]. fold D in Hp, Hdim.
    destruct (position_index st Hinv l idx Hidx) as [Hflat Hrange].
    fold D in Hflat, Hrange.
    rewrite <- Hp, <- Hdim.
    rewrite (beta_slice_correct uninit st Hinv Hbeta). cbn.
    destruct (hessian_row (point_of st l) (dim_of st l) H Hrange Hrows Hlen)
      as (H' & Hrun' & Hrows' & Hcols' & Hlen' & Hcells').
    fold D in Hrows', Hlen', Hcells'.
    exists H'. split; [exact Hrun'|].
    split; [exact Hrows'|]. split; [rewrite Hcols'; exact Hcols|].
    split; [exact Hlen'|].
    intros i j Hi Hj. fold D in Hi, Hj.
    destruct (Hcells' i j Hi Hj) as (Hother & Hnone & Hsome).
    rewrite hessian_terms_snoc by lia.
    destruct (decide (dim_of st l = i /\
                      point_of st l * D + j ∈ m_basis_inds st))
      as [[<- Hin]|Hno].
    + apply position_of_index in Hin as (k & Hk & Hget).
      destruct Hsome as (x & Hx & Hcell); [exists k; split; assumption|].
      rewrite Hcell. rewrite (Hcells _ j Hrange Hj) in Hx.
      injection Hx as <-. now rewrite float_sum_snoc.
    + rewrite app_nil_r.
      destruct (decide (dim_of st l = i)) as [<-|Hne].
      * rewrite Hnone; [now apply Hcells|].
        intros k Hk Hget. apply Hno. split; [reflexivity|].
        apply position_of_index. exists k. split; assumption.
      * rewrite Hother by congruence. now apply Hcells.
  - exists H. split; [exact Hrun|].
    now rewrite Z.max_r in HH by (unfold ss, get_system_size; lia).
Qed.

End HessianValue.

Section HessianShape.
Variable st : NystromD.
Hypothesis Hinv : estimator_inv st.

Let D := get_num_dimensions st.
Let ss := get_system_size st.

Lemma component_position (k a i : Z) :
  component_of st k a i -> point_of st k = a /\ dim_of st k = i.
Proof.
  intros (idx & Hidx & Hai).
  destruct (position_point_dim st k idx Hidx) as [-> ->].
  now rewrite Hai.
Qed.

Lemma pair_points_elem_of (i j a : Z) :
  0 <= i < D ->
  a ∈ pair_points st i j ss <->
  (a * D + i ∈ m_basis_inds st /\ a * D + j ∈ m_basis_inds st).
Proof.
  intros Hi. unfold pair_points. fold D.
  rewrite list_elem_of_fmap. split.
  - intros (l & -> & Hl). apply list_elem_of_filter in Hl as [[Hdim Hin] Hl].
    apply elem_of_seqZ in Hl. split; [|exact Hin].
    assert (Hget : vec_get (m_basis_inds st) l = Some (basis_ind st l))
      by (apply basis_ind_in_range; fold ss; lia).
    destruct (position_index st Hinv l _ Hget) as [Hflat _]. fold D in Hflat.
    rewrite <- Hdim, <- Hflat. eapply vec_get_elem_of. exact Hget.
  - intros [Hin_i Hin_j].
    apply (position_of_index st) in Hin_i as (k & Hk & Hget).
    destruct (component_position k a i) as [Hp Hd];
      [apply (flat_index_component st Hinv); assumption|].
    exists k. split; [now symmetry|].
    apply list_elem_of_filter. split.
    + split; [exact Hd|]. now rewrite Hp.
    + apply elem_of_seqZ. fold ss in Hk. lia.
Qed.

Lemma pair_points_sorted (i j : Z) (n : nat) :
  Z.of_nat n <= ss ->
  StronglySorted Z.lt (pair_points st i j (Z.of_nat n)).
Proof.
  pose proof (inv_dims st Hinv) as HD. fold D in HD.
  induction n as [|n IH]; intros Hn.
  - unfold pair_points. rewrite seqZ_nil by lia. constructor.
  - replace (Z.of_nat (Datatypes.S n)) with (Z.of_nat n + 1) by lia.
    rewrite pair_points_snoc by lia. fold D.
    destruct (decide _) as [[Hdim Hin]|]; [|rewrite app_nil_r; apply IH; lia].
    apply StronglySorted_lt_snoc; [apply IH; lia|].
    intros y Hy. unfold pair_points in Hy.
    apply list_elem_of_fmap in Hy as (l & -> & Hl).
    apply list_elem_of_filter in Hl as [[Hdim_l _] Hl].
    apply elem_of_seqZ in Hl.
    assert (Hget_l : vec_get (m_basis_inds st) l = Some (basis_ind st l))
      by (apply basis_ind_in_range; fold ss; lia).
    assert (Hget_n : vec_get (m_basis_inds st) (Z.of_nat n)
                     = Some (basis_ind st (Z.of_nat n)))
      by (apply basis_ind_in_range; fold ss; lia).
    destruct (position_index st Hinv l _ Hget_l) as [Hflat_l _].
    destruct (position_index st Hinv _ _ Hget_n) as [Hflat_n _].
    fold D in Hflat_l, Hflat_n.
    rewrite vec_get_lookup in Hget_l by lia.
    rewrite vec_get_lookup in Hget_n by lia.
    pose proof (StronglySorted_lt_lookup _ _ _ _ _
                  (inv_sorted st Hinv) Hget_l Hget_n ltac:(lia)) as Hlt.
    rewrite Hflat_l, Hflat_n, Hdim, Hdim_l in Hlt. nia.
Qed.

Lemma pair_points_swap (i j : Z) :
  0 <= i < D -> 0 <= j < D ->
  pair_points st i j ss = pair_points st j i ss.
Proof.
  intros Hi Hj.
  assert (Hss : ss = Z.of_nat (Z.to_nat ss))
    by (unfold ss, get_system_size; lia).
  apply StronglySorted_lt_ext.
  - rewrite Hss. apply pair_points_sorted. lia.
  - rewrite Hss. apply pair_points_sorted. lia.
  - intros a. rewrite !pair_points_elem_of by assumption. tauto.
Qed.

Lemma pair_points_unused (i j : Z) :
  0 <= i < D -> 0 <= j < D ->
  dimension_unused st i \/ dimension_unused st j ->
  pair_points st i j ss = [].
Proof.
  intros Hi Hj Hunused.
  destruct (pair_points st i j ss) as [|a rest] eqn:Hpp; [reflexivity|exfalso].
  assert (Ha : a ∈ pair_points st i j ss) by (rewrite Hpp; left).
  apply pair_points_elem_of in Ha as [Hin_i Hin_j]; [|assumption].
  apply (position_of_index st) in Hin_i as (k & _ & Hget_i).
  apply (position_of_index st) in Hin_j as (k' & _ & Hget_j).
  destruct Hunused as [Hu|Hu].
  - apply (Hu k a). now apply (flat_index_component st Hinv).
  - apply (Hu k' a). now apply (flat_index_component st Hinv).
Qed.

End HessianShape.

(** X12. Under the estimator invariant and with one coefficient per
    component, [hessian] returns a [D x D] matrix whose cell [(i, j)] is the
    sum of [dx_i_dx_j_dx_k_dot_vec_component(a, query, beta_a, i, j)] over
    the points [a] that own both dimension [i] and dimension [j], in the
    order of their components of dimension [i]; [beta_a] is the zero-padded
    beta slice of [a]. *)
Theorem hessian_closed_form (uninit : nat -> float) (st : NystromD)
    (query : Z) :
  estimator_inv st ->
  beta_fitted st ->
  exists H,
    hessian uninit st query = Some H /\
    num_rows H = get_num_dimensions st /\
    num_cols H = get_num_dimensions st /\
    (forall i j, 0 <= i < get_num_dimensions st ->
                 0 <= j < get_num_dimensions st ->
       mat_get H i j
       = Some (float_sum (hessian_terms st query i j (get_system_size st)))) /\
    (forall i j a, 0 <= i < get_num_dimensions st ->
       a ∈ pair_points st i j (get_system_size st) <->
       (a * get_num_dimensions st + i ∈ m_basis_inds st /\
        a * get_num_dimensions st + j ∈ m_basis_inds st)).
Proof.
  intros Hinv Hbeta.
  destruct (hessian_value uninit st query Hinv Hbeta)
    as (H & Hrun & Hrows & Hcols & _ & Hcells).
  exists H. do 4 (split; [assumption|]).
  intros i j a Hi. now apply pair_points_elem_of.
Qed.

Lemma hessian_closed_form_witness :
  exists H,
    hessian Fixtures.stale Fixtures.st_2x2 1 = Some H /\
    num_rows H = get_num_dimensions Fixtures.st_2x2 /\
    num_cols H = get_num_dimensions Fixtures.st_2x2 /\
    (forall i j, 0 <= i < get_num_dimensions Fixtures.st_2x2 ->
                 0 <= j < get_num_dimensions Fixtures.st_2x2 ->
       mat_get H i j
       = Some (float_sum (hessian_terms Fixtures.st_2x2 1 i j
                            (get_system_size Fixtures.st_2x2)))) /\
    (forall i j a, 0 <= i < get_num_dimensions Fixtures.st_2x2 ->
       a ∈ pair_points Fixtures.st_2x2 i j (get_system_size Fixtures.st_2x2) <->
       (a * get_num_dimensions Fixtures.st_2x2 + i
          ∈ m_basis_inds Fixtures.st_2x2 /\
        a * get_num_dimensions Fixtures.st_2x2 + j
          ∈ m_basis_inds Fixtures.st_2x2)).
Proof.
  apply (hessian_closed_form Fixtures.stale Fixtures.st_2x2 1
           st_2x2_inv st_2x2_beta_fitted).
Defined.

(** X13. Under the estimator invariant and with one coefficient per
    component, the cell [(i, j)] of [hessian] is zero whenever dimension [i]
    or dimension [j] is the dimension of no active basis component. *)
Theorem hessian_zero_on_unused_dimensions (uninit : nat -> float)
    (st : NystromD) (query : Z) :
  estimator_inv st ->
  beta_fitted st ->
  exists H,
    hessian uninit st query = Some H /\
    forall i j, 0 <= i < get_num_dimensions st ->
                0 <= j < get_num_dimensions st ->
      (forall k a, ~ component_of st k a i) \/
      (forall k a, ~ component_of st k a j) ->
      mat_get H i j = Some 0%float.
Proof.
  intros Hinv Hbeta.
  destruct (hessian_value uninit st query Hinv Hbeta)
    as (H & Hrun & _ & _ & _ & Hcells).
  exists H. split; [exact Hrun|].
  intros i j Hi Hj Hunused. rewrite Hcells by assumption.
  unfold hessian_terms.
  rewrite (pair_points_unused st Hinv i j Hi Hj Hunused). reflexivity.
Qed.

Lemma hessian_zero_on_unused_dimensions_witness :
  exists H,
    hessian Fixtures.stale Fixtures.st_dim0 1 = Some H /\
    forall i j, 0 <= i < get_num_dimensions Fixtures.st_dim0 ->
                0 <= j < get_num_dimensions Fixtures.st_dim0 ->
      (forall k a, ~ component_of Fixtures.st_dim0 k a i) \/
      (forall k a, ~ component_of Fixtures.st_dim0 k a j) ->
      mat_get H i j = Some 0%float.
Proof.
  apply (hessian_zero_on_unused_dimensions Fixtures.stale Fixtures.st_dim0 1
           st_dim0_inv eq_refl).
Defined.

(** X14. Under the estimator invariant and with one coefficient per
    component, if the kernel's contraction
    [dx_i_dx_j_dx_k_dot_vec_component] does not depend on the order of its
    two dimension arguments, the matrix [hessian] returns is symmetric:
    cells [(i, j)] and [(j, i)] hold the same number (the two accumulate
    the same terms in the same order). *)
Theorem hessian_symmetric (uninit : nat -> float) (st : NystromD)
    (query : Z) :
  estimator_inv st ->
  beta_fitted st ->
  contraction_symmetric (m_kernel st) ->
  exists H,
    hessian uninit st query = Some H /\
    forall i j, 0 <= i < get_num_dimensions st ->
                0 <= j < get_num_dimensions st ->
      exists x, mat_get H i j = Some x /\ mat_get H j i = Some x.
Proof.
  intros Hinv Hbeta Hsym.
  destruct (hessian_value uninit st query Hinv Hbeta)
    as (H & Hrun & _ & _ & _ & Hcells).
  exists H. split; [exact Hrun|].
  intros i j Hi Hj. eexists. split; [now apply Hcells|].
  rewrite Hcells by assumption. f_equal. f_equal.
  unfold hessian_terms.
  rewrite (pair_points_swap st Hinv j i Hj Hi).
  apply list_fmap_ext. intros _ a _. apply Hsym.
Qed.

Lemma k_int_contraction_symmetric : contraction_symmetric Fixtures.k_int.
Proof. intros a b v i j. cbn. do 2 f_equal. lia. Qed.

Lemma hessian_symmetric_witness :
  exists H,
    hessian Fixtures.stale Fixtures.st_2x2 1 = Some H /\
    forall i j, 0 <= i < get_num_dimensions Fixtures.st_2x2 ->
                0 <= j < get_num_dimensions Fixtures.st_2x2 ->
      exists x, mat_get H i j = Some x /\ mat_get H j i = Some x.
Proof.
  apply (hessian_symmetric Fixtures.stale Fixtures.st_2x2 1
           st_2x2_inv st_2x2_beta_fitted k_int_contraction_symmetric).
Defined.

(** ** The right-hand side on any fully active basis *)

Section FullyActiveBasis.
Variable uninit : nat -> float.
Variable st : NystromD.

Let D := get_num_dimensions st.
Let N := get_num_data st.
Let Nb := get_num_basis st.

Hypothesis HD : 0 < D.
Hypothesis HN : 0 <= N.
Hypothesis HNb : 0 <= Nb.
Hypothesis Hfull : m_basis_inds st = seqZ 0 (Nb * D).

Lemma active_basis_get (k : Z) :
  0 <= k < Nb * D -> vec_get (m_basis_inds st) k = Some k.
Proof.
  intros Hk. rewrite vec_get_lookup by lia. rewrite Hfull.
  rewrite lookup_seqZ_lt by lia. f_equal. lia.
Qed.

Lemma h_inner_swept (k a i b : Z) (h0 : list float) (x0 : float) :
  vec_get h0 k = Some x0 ->
  0 <= b ->
  exists h,
    for_loop (Nb * D) (fun idx_l h =>
      ind_l ← vec_get (m_basis_inds st) idx_l;
      if decide ((idx_to_ai ind_l D).1 <> b) then Some h
      else
        h_k ← vec_get h k;
        vec_set h k
          (h_k + kernel.dx_dy_dy_component (m_kernel st) a b i
                   (idx_to_ai ind_l D).2)%float) h0 = Some h /\
    h_cell_inv h0 k x0
      ((fun j => kernel.dx_dy_dy_component (m_kernel st) a b i j)
         <$> seqZ 0 (if decide (b < Nb) then D else 0)) h.
Proof.
  intros Hx0 Hb.
  pose proof (vec_get_Some_range _ _ _ Hx0) as Hk.
  match goal with |- exists r, for_loop ?n ?body h0 = _ /\ _ =>
    destruct (for_loop_inv
      (fun l h => h_cell_inv h0 k x0
         ((fun j => kernel.dx_dy_dy_component (m_kernel st) a b i j)
            <$> seqZ 0 (dims_passed D b l)) h) n body h0)
      as (h & Hrun & Hh) end.
  - split; [reflexivity|]. split; [reflexivity|].
    rewrite seqZ_nil by (unfold dims_passed; nia). exact Hx0.
  - intros l h Hl (Hlen & Hother & Hcell).
    rewrite (active_basis_get l Hl). cbn.
    rewrite idx_to_ai_div_mod by lia. cbn [fst snd].
    destruct (decide (l / D <> b)) as [Hne|Heq].
    + exists h. split; [reflexivity|].
      rewrite dims_passed_other by (assumption || lia).
      split; [assumption|]. split; assumption.
    + assert (l / D = b) as Hq
        by (destruct (decide (l / D = b)); [assumption|contradiction]).
      destruct (dims_passed_same D b l HD ltac:(lia) Hq) as [Hp Hp'].
      rewrite Hcell. cbn.
      assert (Hset : forall x, vec_set h k x = Some (<[Z.to_nat k := x]> h))
        by (intros x; apply vec_set_in_range; lia).
      rewrite Hset. eexists. split; [reflexivity|].
      split; [rewrite length_insert; assumption|]. split.
      * intros k' Hk'.
        rewrite (vec_get_set_ne _ _ _ _ k' (Hset _)) by assumption.
        now apply Hother.
      * rewrite (vec_get_set_eq _ _ _ _ (Hset _)). f_equal.
        rewrite Hp', Hp.
        pose proof (Z.mod_pos_bound l D HD).
        rewrite seqZ_snoc by lia. rewrite fmap_app, foldl_app. reflexivity.
  - exists h. split; [exact Hrun|].
    rewrite Z.max_r in Hh by nia.
    replace (dims_passed D b (Nb * D))
      with (if decide (b < Nb) then D else 0) in Hh; [exact Hh|].
    unfold dims_passed. destruct (decide (b < Nb)); nia.
Qed.

Lemma h_sweep_swept (k a i : Z) (h0 : list float) :
  vec_get h0 k = Some 0%float ->
  exists h,
    for_loop (N * D) (fun b h =>
      for_loop (Nb * D) (fun idx_l h =>
        ind_l ← vec_get (m_basis_inds st) idx_l;
        if decide ((idx_to_ai ind_l D).1 <> b) then Some h
        else
          h_k ← vec_get h k;
          vec_set h k
            (h_k + kernel.dx_dy_dy_component (m_kernel st) a b i
                     (idx_to_ai ind_l D).2)%float) h) h0 = Some h /\
    h_cell_inv h0 k 0%float (h_terms_swept st a i) h.
Proof.
  intros Hx0.
  match goal with |- exists r, for_loop ?n ?body h0 = _ /\ _ =>
    destruct (for_loop_inv
      (fun b h => h_cell_inv h0 k 0%float
         (b' ← seqZ 0 (Z.min b Nb);
          (fun j => kernel.dx_dy_dy_component (m_kernel st) a b' i j)
            <$> seqZ 0 D) h) n body h0)
      as (h & Hrun & Hh) end.
  - split; [reflexivity|]. split; [reflexivity|].
    rewrite (seqZ_nil 0 (Z.min 0 Nb)) by lia. exact Hx0.
  - intros b h Hb (Hlen & Hother & Hcell).
    destruct (h_inner_swept k a i b h _ Hcell ltac:(lia))
      as (h' & Hrun' & Hlen' & Hother' & Hcell').
    exists h'. split; [exact Hrun'|].
    split; [congruence|]. split.
    + intros k' Hk'. rewrite Hother' by assumption. now apply Hother.
    + rewrite Hcell'. f_equal. destruct (decide (b < Nb)) as [HbN|HbN].
      * rewrite (Z.min_l (b + 1)), (Z.min_l b) by lia.
        rewrite seqZ_snoc by lia.
        rewrite bind_app, foldl_app, bind_singleton. reflexivity.
      * rewrite (Z.min_r (b + 1)), (Z.min_r b) by lia.
        rewrite (seqZ_nil 0 0) by lia. reflexivity.
  - exists h. split; [exact Hrun|].
    rewrite Z.max_r in Hh by nia. exact Hh.
Qed.

Lemma compute_h_swept :
  exists h,
    compute_h uninit st = Some h /\
    Z.of_nat (length h) = get_system_size st /\
    forall k a i, component_of st k a i ->
      vec_get h k
      = Some (float_sum (h_terms_swept st a i) * (1 / float_of_index N))%float.
Proof.
  unfold compute_h. fold D N Nb.
  match goal with |- exists r, (mbind _ (for_loop ?n ?body ?h0)) = _ /\ _ =>
    destruct (for_loop_inv (h_swept_inv st) n body h0)
      as (h & Hrun & Hlen & Hh) end.
  - split; [apply new_vector_length; nia|].
    intros k Hk. rewrite decide_False by lia. apply vec_zero_get.
    unfold new_vector. rewrite length_map, length_seq. fold D Nb. lia.
  - intros k h Hk [Hlen Hh]. fold D Nb in Hlen, Hh, Hk.
    rewrite (active_basis_get k Hk). cbn.
    pose proof (Hh k Hk) as Hx0. rewrite decide_False in Hx0 by lia.
    destruct (h_sweep_swept k (idx_to_ai k D).1 (idx_to_ai k D).2 h Hx0)
      as (h' & Hrun' & Hlen' & Hother' & Hcell').
    exists h'. split; [exact Hrun'|]. split; [fold D Nb; lia|].
    intros k' Hk'. fold D Nb in Hk'.
    destruct (decide (k' = k)) as [->|Hne].
    + rewrite Hcell', decide_True by lia. reflexivity.
    + rewrite Hother', Hh by assumption. f_equal.
      destruct (decide (k' < k)), (decide (k' < k + 1)); try reflexivity; lia.
  - rewrite Hrun. cbn. eexists. split; [reflexivity|].
    fold D Nb in Hlen, Hh.
    assert (Hss : get_system_size st = Nb * D).
    { unfold get_system_size. rewrite Hfull, length_seqZ. nia. }
    split; [unfold vec_scale; rewrite length_map; lia|].
    intros k a i (idx & Hidx & Hai).
    pose proof (vec_get_Some_range _ _ _ Hidx) as Hk.
    fold (get_system_size st) in Hk. rewrite Hss in Hk.
    rewrite (active_basis_get k Hk) in Hidx. injection Hidx as <-.
    fold D in Hai.
    specialize (Hh k Hk). rewrite Z.max_r, decide_True in Hh by nia.
    rewrite Hai in Hh. cbn [fst snd] in Hh.
    rewrite vec_get_lookup in Hh |- * by lia.
    unfold vec_scale. rewrite list_lookup_fmap, Hh. reflexivity.
Qed.

End FullyActiveBasis.

(** X15. On a state with [D > 0] whose basis has every component active
    ([m_basis_inds = 0, ..., N_basis*D - 1]), whatever the number of data
    points: [compute_h] returns a vector of length [get_system_size] whose
    entry for (point [a], dimension [i]) is [1/N_data] times the sum of
    [dx_dy_dy_component(a, b, i, j)] over the points [b] below
    [min(N_data*D, N_basis)] and all dimensions [j], that is over the basis
    points, passed to the kernel as data points. *)
Theorem compute_h_sums_over_basis_points (uninit : nat -> float)
    (st : NystromD) :
  0 < get_num_dimensions st ->
  0 <= get_num_data st ->
  0 <= get_num_basis st ->
  m_basis_inds st = seqZ 0 (get_num_basis st * get_num_dimensions st) ->
  exists h,
    compute_h uninit st = Some h /\
    Z.of_nat (length h) = get_system_size st /\
    forall k a i, component_of st k a i ->
      vec_get h k
      = Some (float_sum (h_terms_swept st a i)
              * (1 / float_of_index (get_num_data st)))%float.
Proof.
  intros HD HN HNb Hfull.
  exact (compute_h_swept uninit st HD HN HNb Hfull).
Qed.

Lemma compute_h_sums_over_basis_points_witness :
  exists h,
    compute_h Fixtures.stale Fixtures.st_explicit = Some h /\
    Z.of_nat (length h) = get_system_size Fixtures.st_explicit /\
    forall k a i, component_of Fixtures.st_explicit k a i ->
      vec_get h k
      = Some (float_sum (h_terms_swept Fixtures.st_explicit a i)
              * (1 / float_of_index (get_num_data Fixtures.st_explicit)))%float.
Proof.
  apply (compute_h_sums_over_basis_points Fixtures.stale Fixtures.st_explicit);
    [reflexivity|cbn; lia|cbn; lia|reflexivity].
Defined.

(** ** The index mapper on any pair of indices *)

(** X16. For [D > 0] the index mapper is injective on all of [index_t],
    and on non-negative indices it is increasing for the order that
    compares the point first and the dimension second: an ascending index
    vector lists the components point by point. *)
Theorem idx_to_ai_injective_and_ordered (D : Z) :
  0 < D ->
  (forall idx idx', idx_to_ai idx D = idx_to_ai idx' D -> idx = idx') /\
  (forall idx idx', 0 <= idx < idx' ->
     (idx_to_ai idx D).1 < (idx_to_ai idx' D).1 \/
     ((idx_to_ai idx D).1 = (idx_to_ai idx' D).1 /\
      (idx_to_ai idx D).2 < (idx_to_ai idx' D).2)).
Proof.
  intros HD. split.
  - intros idx idx'. apply idx_to_ai_inj. lia.
  - intros idx idx' Hlt.
    rewrite !idx_to_ai_div_mod by lia. cbn [fst snd].
    pose proof (Z.div_mod idx D ltac:(lia)).
    pose proof (Z.div_mod idx' D ltac:(lia)).
    pose proof (Z.mod_pos_bound idx D HD).
    pose proof (Z.mod_pos_bound idx' D HD).
    destruct (Z.lt_total (idx / D) (idx' / D)) as [?|[?|?]];
      [now left|right; split; [assumption|nia]|nia].
Qed.

Lemma idx_to_ai_injective_and_ordered_witness :
  (forall idx idx', idx_to_ai idx 3 = idx_to_ai idx' 3 -> idx = idx') /\
  (forall idx idx', 0 <= idx < idx' ->
     (idx_to_ai idx 3).1 < (idx_to_ai idx' 3).1 \/
     ((idx_to_ai idx 3).1 = (idx_to_ai idx' 3).1 /\
      (idx_to_ai idx 3).2 < (idx_to_ai idx' 3).2)).
Proof. apply (idx_to_ai_injective_and_ordered 3). lia. Defined.

(** ** Full and empty masks *)

Lemma seqZ_sorted (n : nat) : StronglySorted Z.lt (seqZ 0 (Z.of_nat n)).
Proof.
  induction n as [|n IH].
  - rewrite seqZ_nil by lia. constructor.
  - rewrite seqZ_S. apply StronglySorted_lt_snoc; [exact IH|].
    intros y Hy. apply elem_of_seqZ in Hy. lia.
Qed.

(** X17. On a well-formed mask whose cells are all true,
    [basis_inds_from_mask] returns every flat index [0, ..., rows*cols - 1]
    in order, so that every component of the basis is active; on a mask
    whose cells are all false it returns the empty vector. *)
Theorem basis_inds_from_mask_full_and_empty (qsort : list Z -> list Z)
    (basis_mask : SGMatrix bool) :
  (forall l, qsort l ≡ₚ l) ->
  (forall l, Sorted Z.le (qsort l)) ->
  mat_wf basis_mask ->
  (Forall (eq true) (matrix basis_mask) ->
   basis_inds_from_mask qsort basis_mask
   = Some (seqZ 0 (num_rows basis_mask * num_cols basis_mask))) /\
  (Forall (eq false) (matrix basis_mask) ->
   basis_inds_from_mask qsort basis_mask = Some []).
Proof.
  intros Hperm Hsorted Hwf.
  destruct (mask_inds qsort Hperm Hsorted basis_mask Hwf)
    as (inds & Hrun & Hisorted & Hmem).
  destruct Hwf as (Hr & Hc & Hlen).
  rewrite Hrun. split; intros Hall; f_equal.
  - apply StronglySorted_lt_ext; [exact Hisorted| |].
    + replace (num_rows basis_mask * num_cols basis_mask)
        with (Z.of_nat (Z.to_nat (num_rows basis_mask * num_cols basis_mask)))
        by nia.
      apply seqZ_sorted.
    + intros x. rewrite Hmem, elem_of_seqZ. split; [intros [Hx _]; lia|].
      intros Hx. split; [lia|].
      destruct (vec_get_in_range (matrix basis_mask) x) as [m Hm]; [lia|].
      rewrite Hm. f_equal. symmetry.
      rewrite Forall_forall in Hall. apply Hall.
      eapply vec_get_elem_of. exact Hm.
  - destruct inds as [|x rest]; [reflexivity|exfalso].
    assert (Hx : x ∈ x :: rest) by left.
    apply Hmem in Hx as [_ Hx].
    rewrite Forall_forall in Hall.
    pose proof (Hall true (vec_get_elem_of _ _ _ Hx)). discriminate.
Qed.

Lemma basis_inds_from_mask_full_and_empty_witness :
  (Forall (eq true) (matrix (mkSGMatrix 2 2 [true; true; true; true])) ->
   basis_inds_from_mask Fixtures.qsort_index
     (mkSGMatrix 2 2 [true; true; true; true])
   = Some (seqZ 0 (num_rows (mkSGMatrix 2 2 [true; true; true; true])
                   * num_cols (mkSGMatrix 2 2 [true; true; true; true])))) /\
  (Forall (eq false) (matrix (mkSGMatrix 2 2 [true; true; true; true])) ->
   basis_inds_from_mask Fixtures.qsort_index
     (mkSGMatrix 2 2 [true; true; true; true]) = Some []).
Proof.
  apply (basis_inds_from_mask_full_and_empty Fixtures.qsort_index
           (mkSGMatrix 2 2 [true; true; true; true])
           qsort_index_perm qsort_index_sorted).
  unfold mat_wf. cbn. lia.
Defined.
